(** * Analyse_auth: failed SSH logins per source address

    A shallow embedding of [src/Analyse_auth.py] and the properties its
    specification states about it.

    Modelling conventions.
    - A Python [str] is a [string]; the regular-expression engine works on
      its characters, a [list ascii].  An [ascii] is a code point below
      256, with the classes [\w], [\d], [\s] that [re] gives it on [str]
      patterns; text with other code points is outside the model.
    - Python integers are [Z].
    - [Counter] keeps insertion order, which [most_common] exposes, so
      [counts] is an association list in insertion order with unique keys.
      [first_seen] and [last_seen] are plain dicts: [gmap string _].  A
      stored value is [option datetime]: Python's [None] is the option's [None].
    - Exceptions are the [Raise] branch of the [result] monad.
    - [datetime.now().year] is the parameter [year] of a run.
    - [print] appends one string to the standard output, a [list string].
    - The file system is a map from paths to what [open] answers there,
      for reading and for writing. *)

From Stdlib Require Import ZArith Ascii String DecimalString DecimalPos.
From stdpp Require Import gmap strings list sorting.

Local Open Scope Z_scope.
#[local] Set Warnings "-clear-no-such-hyp".

(** ** Exceptions *)

Inductive exn : Type :=
  | ValueError
  | TypeError
  | FileNotFoundError
  | PermissionError
  | IsADirectoryError.

Inductive result (A : Type) : Type :=
  | Ok (a : A)
  | Raise (e : exn).
Arguments Ok {A} a.
Arguments Raise {A} e.

#[global] Instance result_ret : MRet result := fun _ a => Ok a.
#[global] Instance result_bind : MBind result := fun _ _ f r =>
  match r with
  | Ok a => f a
  | Raise e => Raise e
  end.

(** ** Characters and character classes of [re] *)

Definition text := list ascii.

Definition code (c : ascii) : Z := Z.of_N (N_of_ascii c).

Definition between (lo x hi : Z) : bool := (lo <=? x) && (x <=? hi).

(** [\d] *)
Definition is_digit (c : ascii) : bool := between 48 (code c) 57.

(** [\w]: the alphanumeric characters and the underscore; above 127
    these are the letters and the numeric signs of Latin-1. *)
Definition is_word (c : ascii) : bool :=
  between 65 (code c) 90
  || between 97 (code c) 122
  || is_digit c
  || (code c =? 95)
  || (code c =? 170) || between 178 (code c) 179 || (code c =? 181)
  || between 185 (code c) 186 || between 188 (code c) 190
  || between 192 (code c) 214 || between 216 (code c) 246
  || between 248 (code c) 255.

(** [\s] on [str] patterns: tab, LF, VT, FF, CR, the four separators
    0x1c..0x1f, the space, NEL and the no-break space. *)
Definition is_space (c : ascii) : bool :=
  between 9 (code c) 13
  || between 28 (code c) 32
  || (code c =? 133)
  || (code c =? 160).

(** [.] without DOTALL: anything but a line feed. *)
Definition is_dot (c : ascii) : bool := negb (code c =? 10).

(** ** Regular expressions: the fragment [PATTERN] is written in *)

Inductive regex : Type :=
  | Cls (p : ascii → bool)              (* one character of a class *)
  | Lit (s : text)                      (* literal text *)
  | Seq (r1 r2 : regex)                 (* r1 r2 *)
  | Alt (r1 r2 : regex)                 (* r1 | r2, left first *)
  | Many (p : ascii → bool)             (* c*, greedy, c a class *)
  | Rep (lo hi : nat) (r : regex)       (* r{lo,hi}, greedy *)
  | Group (name : string) (r : regex).  (* (?P<name> r) *)

Declare Scope regex_scope.
Delimit Scope regex_scope with re.
Bind Scope regex_scope with regex.
Infix "⋅" := Seq (at level 41, right associativity) : regex_scope.

(** [c+] *)
Definition Some1 (p : ascii → bool) : regex := Seq (Cls p) (Many p).

(** The groups of a match object. *)
Abbreviation groups := (gmap string text).

(** A continuation receives the rest of the subject and the groups
    captured so far; [None] makes the engine backtrack. *)
Definition cont := text → groups → option groups.

Fixpoint lit_m (lit s : text) : option text :=
  match lit, s with
  | [], _ => Some s
  | a :: lit', c :: s' => if Ascii.eqb a c then lit_m lit' s' else None
  | _ :: _, [] => None
  end.

(** Greedy [c*]: the longest run first, then shorter ones. *)
Fixpoint many_m (p : ascii → bool) (s : text) (g : groups) (k : cont)
  : option groups :=
  match s with
  | c :: s' =>
      if p c then
        match many_m p s' g k with
        | Some g' => Some g'
        | None => k s g
        end
      else k s g
  | [] => k [] g
  end.

(** Greedy [r{lo,hi}] for the matcher [mr] of [r]: one more repetition is
    tried before stopping, and stopping needs [lo] to be used up. *)
Fixpoint rep_m (mr : text → groups → cont → option groups)
    (lo hi : nat) (s : text) (g : groups) (k : cont) : option groups :=
  match hi with
  | O => match lo with O => k s g | S _ => None end
  | S hi' =>
      match mr s g (fun s' g' => rep_m mr (pred lo) hi' s' g' k) with
      | Some g' => Some g'
      | None => match lo with O => k s g | S _ => None end
      end
  end.

(** The backtracking matcher, anchored at the start of [s]. *)
Fixpoint match_here (r : regex) (s : text) (g : groups) (k : cont)
  : option groups :=
  match r with
  | Cls p =>
      match s with
      | c :: s' => if p c then k s' g else None
      | [] => None
      end
  | Lit l =>
      match lit_m l s with
      | Some s' => k s' g
      | None => None
      end
  | Seq r1 r2 => match_here r1 s g (fun s' g' => match_here r2 s' g' k)
  | Alt r1 r2 =>
      match match_here r1 s g k with
      | Some g' => Some g'
      | None => match_here r2 s g k
      end
  | Many p => many_m p s g k
  | Rep lo hi r' => rep_m (match_here r') lo hi s g k
  | Group name r' =>
      match_here r' s g
        (fun s' g' => k s' (<[name := take (length s - length s')%nat s]> g'))
  end.

(** [re.search]: the first offset at which the pattern matches. *)
Fixpoint search (r : regex) (s : text) : option groups :=
  match match_here r s ∅ (fun _ g => Some g) with
  | Some g => Some g
  | None =>
      match s with
      | [] => None
      | _ :: s' => search r s'
      end
  end.

(** [m.group(name)] *)
Definition group (m : groups) (name : string) : text := m !!! name.

(** ** The pattern of the source *)

Definition chars (s : string) : text := list_ascii_of_string s.

Definition IP_RE : regex :=
  (Rep 1 3 (Cls is_digit) ⋅ Rep 3 3 (Lit (chars ".") ⋅ Rep 1 3 (Cls is_digit)))%re.

Definition TIME_RE : regex :=
  (Rep 2 2 (Cls is_digit) ⋅ Lit (chars ":") ⋅ Rep 2 2 (Cls is_digit)
   ⋅ Lit (chars ":") ⋅ Rep 2 2 (Cls is_digit))%re.

Definition TRIGGER_RE : regex :=
  Alt (Lit (chars "Failed password")) (Lit (chars "Invalid user")).

Definition PATTERN : regex :=
  (Group "month" (Rep 3 3 (Cls is_word)) ⋅ Some1 is_space
   ⋅ Group "day" (Rep 1 2 (Cls is_digit)) ⋅ Some1 is_space
   ⋅ Group "time" TIME_RE
   ⋅ Many is_dot ⋅ Lit (chars "sshd")
   ⋅ Many is_dot ⋅ TRIGGER_RE
   ⋅ Many is_dot ⋅ Lit (chars "from") ⋅ Some1 is_space
   ⋅ Group "ip" IP_RE)%re.

(** ** [int], [str.split], [MONTHS] *)

Definition str (s : text) : string := string_of_list_ascii s.

(** [int(s)] on a run of decimal digits; anything else is a
    [ValueError] here (the groups of [PATTERN] hold digits only). *)
Definition digit_step (acc : Z) (c : ascii) : Z := 10 * acc + (code c - 48).

Definition int (s : text) : result Z :=
  match s with
  | [] => Raise ValueError
  | _ :: _ =>
      if forallb is_digit s then Ok (fold_left digit_step s 0)
      else Raise ValueError
  end.

(** [s.split(sep)] for a one-character separator. *)
Fixpoint split (sep : ascii) (s : text) : list text :=
  match s with
  | [] => [[]]
  | c :: s' =>
      if Ascii.eqb c sep then [] :: split sep s'
      else match split sep s' with
           | [] => [[c]]
           | w :: ws => (c :: w) :: ws
           end
  end.

Definition MONTHS : gmap string Z :=
  list_to_map
    [("Jan", 1); ("Feb", 2); ("Mar", 3); ("Apr", 4); ("May", 5); ("Jun", 6);
     ("Jul", 7); ("Aug", 8); ("Sep", 9); ("Oct", 10); ("Nov", 11); ("Dec", 12)]%string.

(** ** [datetime] *)

Record datetime : Type := Datetime {
  dt_year : Z; dt_month : Z; dt_day : Z;
  dt_hour : Z; dt_minute : Z; dt_second : Z; dt_microsecond : Z
}.

Definition is_leap (y : Z) : bool :=
  (y mod 4 =? 0) && (negb (y mod 100 =? 0) || (y mod 400 =? 0)).

Definition days_in_month (y m : Z) : Z :=
  if m =? 2 then (if is_leap y then 29 else 28)
  else if (m =? 4) || (m =? 6) || (m =? 9) || (m =? 11) then 30
  else 31.

(** The checks of the [datetime] constructor. *)
Definition datetime_ok (d : datetime) : bool :=
  between 1 (dt_year d) 9999
  && between 1 (dt_month d) 12
  && between 1 (dt_day d) (days_in_month (dt_year d) (dt_month d))
  && between 0 (dt_hour d) 23
  && between 0 (dt_minute d) 59
  && between 0 (dt_second d) 59
  && between 0 (dt_microsecond d) 999999.

(** [datetime(year, month, day, *args)]: hour, minute, second and
    microsecond default to 0; a fifth positional argument would be a
    [tzinfo], which an [int] is not. *)
Definition datetime_new (year month day : Z) (args : list Z) : result datetime :=
  let build h mi s us :=
    let d := Datetime year month day h mi s us in
    if datetime_ok d then Ok d else Raise ValueError in
  match args with
  | [] => build 0 0 0 0
  | [h] => build h 0 0 0
  | [h; mi] => build h mi 0 0
  | [h; mi; s] => build h mi s 0
  | [h; mi; s; us] => build h mi s us
  | _ => Raise TypeError
  end.

(** Naive datetimes compare as the tuples of their fields. *)
Definition lex (c1 c2 : comparison) : comparison :=
  match c1 with
  | Eq => c2
  | _ => c1
  end.

Definition dt_compare (a b : datetime) : comparison :=
  lex (dt_year a ?= dt_year b)
   (lex (dt_month a ?= dt_month b)
     (lex (dt_day a ?= dt_day b)
       (lex (dt_hour a ?= dt_hour b)
         (lex (dt_minute a ?= dt_minute b)
           (lex (dt_second a ?= dt_second b)
                (dt_microsecond a ?= dt_microsecond b)))))).

(** [a < b], [a > b] and [a <= b] on two datetimes. *)
Definition dt_ltb (a b : datetime) : bool :=
  match dt_compare a b with Lt => true | _ => false end.
Definition dt_gtb (a b : datetime) : bool :=
  match dt_compare a b with Gt => true | _ => false end.
Definition dt_le (a b : datetime) : Prop := dt_compare a b ≠ Gt.

(** ** [parse_line] *)

(** [try: ... except Exception: None] *)
Definition except_none {A} (r : result A) : option A :=
  match r with
  | Ok a => Some a
  | Raise _ => None
  end.

(** What [parse_line] reads off a match object: the month number, the
    day and the pieces of the time. *)
Definition month_of (m : groups) : Z := default 0 (MONTHS !! str (group m "month")).
Definition day_of (m : groups) : result Z := int (group m "day").
Definition time_of (m : groups) : result (list Z) :=
  mapM int (split ":" (group m "time")).

(** [now] is [datetime.now().year]; [year] is the optional argument. *)
Definition parse_line (now : Z) (line : string) (year : option Z)
  : result (option (string * option datetime)) :=
  match search PATTERN (chars line) with
  | None => Ok None
  | Some m =>
      let month := month_of m in
      day ← day_of m;
      let ip := group m "ip" in
      let year := match year with None => now | Some y => y end in
      let dt := except_none (args ← time_of m; datetime_new year month day args) in
      Ok (Some (str ip, dt))
  end.

(** ** [analyze_log] *)

(** The local variables of [analyze_log], which become its result. *)
Record analysis : Type := Analysis {
  total_lines : Z;
  matched_lines : Z;
  counts : list (string * Z);
  first_seen : gmap string (option datetime);
  last_seen : gmap string (option datetime)
}.

Definition analysis_init : analysis := Analysis 0 0 [] ∅ ∅.

(** [counts[ip]], which is 0 for a missing key without inserting it. *)
Fixpoint counter_get (ip : string) (c : list (string * Z)) : Z :=
  match c with
  | [] => 0
  | (k, v) :: c' => if decide (k = ip) then v else counter_get ip c'
  end.

(** [counts[ip] += 1]: an existing entry keeps its place, a new key goes
    to the end. *)
Fixpoint counter_incr (ip : string) (c : list (string * Z)) : list (string * Z) :=
  match c with
  | [] => [(ip, 1)]
  | (k, v) :: c' =>
      if decide (k = ip) then (k, v + 1) :: c'
      else (k, v) :: counter_incr ip c'
  end.

(** [if ip not in seen or (dt and beats(dt, seen[ip])): seen[ip] = dt].
    A datetime is always truthy; comparing one with [None] raises. *)
Definition update_seen (beats : datetime → datetime → bool) (ip : string)
    (dt : option datetime) (seen : gmap string (option datetime))
  : result (gmap string (option datetime)) :=
  match seen !! ip with
  | None => Ok (<[ip := dt]> seen)
  | Some cur =>
      match dt with
      | None => Ok seen
      | Some d =>
          match cur with
          | None => Raise TypeError
          | Some c => Ok (if beats d c then <[ip := dt]> seen else seen)
          end
      end
  end.

(** The body of the loop over the lines. *)
Definition analyze_step (now : Z) (st : analysis) (line : string) : result analysis :=
  let total := total_lines st + 1 in
  res ← parse_line now line None;
  match res with
  | None =>
      Ok (Analysis total (matched_lines st) (counts st) (first_seen st) (last_seen st))
  | Some (ip, dt) =>
      let matched := matched_lines st + 1 in
      let cnt := counter_incr ip (counts st) in
      fs ← update_seen dt_ltb ip dt (first_seen st);
      ls ← update_seen dt_gtb ip dt (last_seen st);
      Ok (Analysis total matched cnt fs ls)
  end.

Fixpoint analyze_loop (now : Z) (st : analysis) (lines : list string) : result analysis :=
  match lines with
  | [] => Ok st
  | line :: rest => st' ← analyze_step now st line; analyze_loop now st' rest
  end.

(** The files the program can see, by what [open] answers at each path.
    A path that is not a key does not exist and can be created.
    [Regular] is a file that can be read and overwritten; [Unreadable]
    one that [open] refuses in either mode.  [Special r w] is any other
    path: [r] is the answer to opening it for reading (the lines, or the
    exception) and [w] the answer to opening it for writing; a
    directory, a path under a missing directory and a read-only file are
    of this kind. *)
Inductive file : Type :=
  | Regular (lines : list string)
  | Unreadable
  | Special (reading : result (list string)) (writing : result unit).

Abbreviation fsys := (gmap string file).

(** [open(path, 'r', ...)] followed by the iteration over the lines. *)
Definition open_read (fs : fsys) (path : string) : result (list string) :=
  match fs !! path with
  | None => Raise FileNotFoundError
  | Some Unreadable => Raise PermissionError
  | Some (Regular lines) => Ok lines
  | Some (Special reading _) => reading
  end.

(** [open(path, 'w', ...)] *)
Definition open_write (fs : fsys) (path : string) : result unit :=
  match fs !! path with
  | None => Ok ()
  | Some (Regular _) => Ok ()
  | Some Unreadable => Raise PermissionError
  | Some (Special _ writing) => writing
  end.

Definition analyze_log (now : Z) (fs : fsys) (path : string) (top_n : Z)
  : result analysis :=
  lines ← open_read fs path;
  analyze_loop now analysis_init lines.

(** ** Ranking: [Counter.most_common] *)

(** [x] goes in front of the first entry whose count is not larger:
    behind the larger counts, ahead of the equal ones. *)
Fixpoint insert_desc (x : string * Z) (l : list (string * Z)) : list (string * Z) :=
  match l with
  | [] => [x]
  | y :: l' => if x.2 <? y.2 then y :: insert_desc x l' else x :: l
  end.

(** [sorted(items, key=itemgetter(1), reverse=True)]: a stable sort, so
    its result is the one of this insertion sort. *)
Definition sorted_desc (items : list (string * Z)) : list (string * Z) :=
  foldr insert_desc [] items.

(** [most_common(n)]: everything for [n = None]; otherwise
    [heapq.nlargest(n, items, key=count)], which is empty for [n <= 0]
    and the first [n] entries of the sorted list for a positive [n]. *)
Definition most_common (n : option Z) (c : list (string * Z)) : list (string * Z) :=
  match n with
  | None => sorted_desc c
  | Some n => if n <=? 0 then [] else take (Z.to_nat n) (sorted_desc c)
  end.

(** ** Text rendering *)

(** [str(n)] for an integer. *)
Definition str_Z (n : Z) : string := NilZero.string_of_int (Z.to_int n).

Definition spaces (n : nat) : string := string_of_list_ascii (replicate n " "%char).
Definition zeros (n : nat) : string := string_of_list_ascii (replicate n "0"%char).

(** [f"{s:w}"] for a string: left aligned, never truncated. *)
Definition ljust (w : nat) (s : string) : string :=
  s +:+ spaces (w - String.length s).

(** [f"{n:w}"] for an integer: right aligned. *)
Definition rjust (w : nat) (s : string) : string :=
  spaces (w - String.length s) +:+ s.

(** ["%0wd"] for a field of a valid datetime. *)
Definition zpad (w : nat) (n : Z) : string :=
  zeros (w - String.length (str_Z n)) +:+ str_Z n.

(** [d.isoformat(sep)] *)
Definition isoformat_sep (sep : string) (d : datetime) : string :=
  zpad 4 (dt_year d) +:+ "-" +:+ zpad 2 (dt_month d) +:+ "-" +:+ zpad 2 (dt_day d)
  +:+ sep
  +:+ zpad 2 (dt_hour d) +:+ ":" +:+ zpad 2 (dt_minute d) +:+ ":" +:+ zpad 2 (dt_second d)
  +:+ (if dt_microsecond d =? 0 then "" else "." +:+ zpad 6 (dt_microsecond d)).

Definition isoformat : datetime → string := isoformat_sep "T".

(** [f"{x}"] for a datetime or [None]. *)
Definition fmt_seen (x : option datetime) : string :=
  match x with
  | None => "None"
  | Some d => isoformat_sep " " d
  end.

(** [seen.get(ip)]: a missing key and a stored [None] both give [None]. *)
Definition seen_get (seen : gmap string (option datetime)) (ip : string)
  : option datetime := default None (seen !! ip).

(** ** [save_csv] *)

Definition csv_header : list string := ["ip"; "count"; "first_seen"; "last_seen"]%string.

(** [x.isoformat() if x else ''] *)
Definition csv_seen (x : option datetime) : string :=
  match x with
  | None => ""
  | Some d => isoformat d
  end.

Definition csv_row (fs ls : gmap string (option datetime)) (e : string * Z)
  : list string :=
  [e.1; str_Z e.2; csv_seen (seen_get fs e.1); csv_seen (seen_get ls e.1)].

(** The rows handed to [writer.writerow], header first. *)
Definition csv_rows (c : list (string * Z)) (fs ls : gmap string (option datetime))
  : list (list string) :=
  csv_header :: map (csv_row fs ls) (most_common None c).

(** What a run leaves behind: the lines printed, the CSV files written
    (path and rows) and how the call ended. *)
Record effects : Type := Effects {
  stdout : list string;
  written : list (string * list (list string));
  outcome : result unit
}.

(** [open] comes first and is not guarded: when it raises, nothing is
    written and nothing printed.  Once the file is open, the rows are
    written and the confirmation is printed; a failure of the device
    during these writes is not modelled. *)
Definition save_csv (world : fsys) (path : string) (c : list (string * Z))
    (fs ls : gmap string (option datetime)) : effects :=
  match open_write world path with
  | Raise e => Effects [] [] (Raise e)
  | Ok _ => Effects ["[+] CSV saved to " +:+ path] [(path, csv_rows c fs ls)] (Ok ())
  end.

(** ** [pretty_print_summary] *)

Definition summary_row (fs ls : gmap string (option datetime)) (e : string * Z)
  : string :=
  " - " +:+ ljust 15 e.1 +:+ " | attempts: " +:+ rjust 4 (str_Z e.2)
  +:+ " | first: " +:+ fmt_seen (seen_get fs e.1)
  +:+ " | last: " +:+ fmt_seen (seen_get ls e.1).

(** The entries the summary lists. *)
Definition top_entries (res : analysis) (top_n : Z) : list (string * Z) :=
  most_common (Some top_n) (counts res).

Definition summary_head (res : analysis) : list string :=
  ["=== Log analysis summary ===";
   "Total lines scanned: " +:+ str_Z (total_lines res);
   "Lines matched (SSH failures): " +:+ str_Z (matched_lines res);
   String "010" "Top IPs by failed attempts:"]%string.

Definition summary_foot : list string := ["============================"]%string.

Definition pretty_print_summary (res : analysis) (top_n : Z) : list string :=
  summary_head res
  ++ map (summary_row (first_seen res) (last_seen res)) (top_entries res top_n)
  ++ summary_foot.

(** ** [main] *)

Record args : Type := Args {
  arg_file : string;
  arg_top : Z;
  arg_out : option string
}.

(** [if args.out:] — [None] and the empty string are falsy. *)
Definition truthy_path (o : option string) : option string :=
  match o with
  | Some p => if decide (p = ""%string) then None else Some p
  | None => None
  end.

Definition main (now : Z) (fs : fsys) (a : args) : effects :=
  match analyze_log now fs (arg_file a) (arg_top a) with
  | Raise FileNotFoundError =>
      Effects ["Fichier introuvable : " +:+ arg_file a] [] (Ok ())
  | Raise e => Effects [] [] (Raise e)
  | Ok res =>
      let summary := pretty_print_summary res (arg_top a) in
      match truthy_path (arg_out a) with
      | None => Effects summary [] (Ok ())
      | Some path =>
          let w := save_csv fs path (counts res) (first_seen res) (last_seen res) in
          Effects (summary ++ stdout w) (written w) (outcome w)
      end
  end.

(** ** What a pattern denotes *)

(** [matches r s]: the whole of [s] is a match of [r]. *)
Inductive matches : regex → text → Prop :=
  | matches_cls p c : p c = true → matches (Cls p) [c]
  | matches_lit l : matches (Lit l) l
  | matches_seq r1 r2 s1 s2 :
      matches r1 s1 → matches r2 s2 → matches (Seq r1 r2) (s1 ++ s2)
  | matches_alt_l r1 r2 s : matches r1 s → matches (Alt r1 r2) s
  | matches_alt_r r1 r2 s : matches r2 s → matches (Alt r1 r2) s
  | matches_many p s : forallb p s = true → matches (Many p) s
  | matches_rep_stop hi r : matches (Rep 0 hi r) []
  | matches_rep_more lo hi r s1 s2 :
      matches r s1 → matches (Rep (pred lo) hi r) s2 →
      matches (Rep lo (S hi) r) (s1 ++ s2)
  | matches_group name r s : matches r s → matches (Group name r) s.

(** [captures r s g g']: [s] is a match of [r] that turns the groups [g]
    into [g']. *)
Inductive captures : regex → text → groups → groups → Prop :=
  | captures_cls p c g : p c = true → captures (Cls p) [c] g g
  | captures_lit l g : captures (Lit l) l g g
  | captures_seq r1 r2 s1 s2 g g1 g2 :
      captures r1 s1 g g1 → captures r2 s2 g1 g2 →
      captures (Seq r1 r2) (s1 ++ s2) g g2
  | captures_alt_l r1 r2 s g g' : captures r1 s g g' → captures (Alt r1 r2) s g g'
  | captures_alt_r r1 r2 s g g' : captures r2 s g g' → captures (Alt r1 r2) s g g'
  | captures_many p s g : forallb p s = true → captures (Many p) s g g
  | captures_rep_stop hi r g : captures (Rep 0 hi r) [] g g
  | captures_rep_more lo hi r s1 s2 g g1 g2 :
      captures r s1 g g1 → captures (Rep (pred lo) hi r) s2 g1 g2 →
      captures (Rep lo (S hi) r) (s1 ++ s2) g g2
  | captures_group name r s g g' :
      captures r s g g' → captures (Group name r) s g (<[name := s]> g').

(** [needle] occurs somewhere in [hay]. *)
Definition contains (needle hay : text) : Prop :=
  ∃ pre post, hay = pre ++ needle ++ post.

(** Some part of the line is a match of the pattern. *)
Definition has_match (r : regex) (s : text) : Prop :=
  ∃ pre mid post, s = pre ++ mid ++ post ∧ matches r mid.

(** [from], white space and a dotted quad, as the pattern ends. *)
Definition FROM_IP_RE : regex := (Lit (chars "from") ⋅ Some1 is_space ⋅ IP_RE)%re.

(** The three ways of failing that the specification lists: no [sshd],
    neither trigger phrase, no [from] followed by a dotted quad. *)
Definition lacks_required_part (line : string) : Prop :=
  ¬ contains (chars "sshd") (chars line)
  ∨ ¬ has_match TRIGGER_RE (chars line)
  ∨ ¬ has_match FROM_IP_RE (chars line).

(** The fields of a datetime the specification calls a valid calendar
    date and time. *)
Definition valid_calendar (y mo d h mi s : Z) : Prop :=
  1 ≤ y ≤ 9999 ∧ 1 ≤ mo ≤ 12 ∧ 1 ≤ d ≤ days_in_month y mo
  ∧ 0 ≤ h ≤ 23 ∧ 0 ≤ mi ≤ 59 ∧ 0 ≤ s ≤ 59.

(** A line counts as matched when [parse_line] returns a pair. *)
Definition is_matched (now : Z) (line : string) : bool :=
  match parse_line now line None with
  | Ok (Some _) => true
  | _ => false
  end.

(** The address of a matched line. *)
Definition matched_ip (now : Z) (line : string) : option string :=
  match parse_line now line None with
  | Ok (Some (ip, _)) => Some ip
  | _ => None
  end.


Definition sum_Z (l : list Z) : Z := foldr Z.add 0 l.

(** A line is either not matched or carries a valid timestamp. *)
Definition valid_stamped (now : Z) (line : string) : Prop :=
  parse_line now line None = Ok None
  ∨ ∃ ip d, parse_line now line None = Ok (Some (ip, Some d)).

(** The distinct elements of a list in the order of their first
    occurrence. *)
Fixpoint first_occurrences (l : list string) : list string :=
  match l with
  | [] => []
  | x :: l' => x :: filter (fun y => y ≠ x) (first_occurrences l')
  end.

(** A pattern without named groups. *)
Fixpoint group_free (r : regex) : bool :=
  match r with
  | Cls _ | Lit _ | Many _ => true
  | Seq r1 r2 | Alt r1 r2 => group_free r1 && group_free r2
  | Rep _ _ r' => group_free r'
  | Group _ _ => false
  end.

(** The invariants of the loop: the three dicts have the same keys, no
    key twice in the counter, every count at least 1, and the counts add
    up to [matched_lines]. *)
Record consistent (st : analysis) : Prop := Consistent {
  first_keys : dom (first_seen st) = list_to_set (counts st).*1;
  last_keys : dom (last_seen st) = list_to_set (counts st).*1;
  keys_NoDup : NoDup (counts st).*1;
  counts_positive : Forall (fun e => 1 ≤ e.2) (counts st);
  counts_sum : sum_Z (counts st).*2 = matched_lines st
}.

(** Where both are present, first seen is not after last seen. *)
Definition seen_ordered (st : analysis) : Prop :=
  ∀ ip a b,
    first_seen st !! ip = Some (Some a) → last_seen st !! ip = Some (Some b) →
    dt_le a b.

(** No stored timestamp is [None]. *)
Definition seen_present (st : analysis) : Prop :=
  ∀ ip, first_seen st !! ip ≠ Some None ∧ last_seen st !! ip ≠ Some None.

(** [x] ranks no lower than [y]. *)
Definition count_ge (x y : string * Z) : Prop := y.2 ≤ x.2.

(** ** Sample logs *)

Definition line_admin : string :=
  "Apr 10 12:34:56 host sshd[1234]: Failed password for invalid user admin from 1.2.3.4 port 5555 ssh2".
Definition line_root : string :=
  "Apr 10 12:35:01 host sshd[1234]: Failed password for user root from 5.6.7.8 port 2222 ssh2".
Definition line_feb30 : string :=
  "Feb 30 10:00:00 host sshd[77]: Failed password for root from 9.9.9.9 port 4000 ssh2".
Definition line_mar1 : string :=
  "Mar  1 10:00:00 host sshd[77]: Invalid user guest from 9.9.9.9 port 4001 ssh2".
Definition line_cron : string :=
  "Apr 10 12:36:00 host CRON[99]: session opened for user root".
(** All three parts the specification asks for, no timestamp in front. *)
Definition line_no_stamp : string :=
  "sshd[1234]: Failed password for Invalid user admin from 1.2.3.4".

Definition sample_log : list string :=
  [line_admin; line_root; line_cron; line_admin; line_feb30].
Definition sample_fs : fsys := {[ "auth.log"%string := Regular sample_log ]}.
Definition valid_log : list string := [line_root; line_admin; line_cron; line_admin].
Definition valid_fs : fsys := {[ "auth.log"%string := Regular valid_log ]}.
Definition absent_first_log : list string := [line_feb30; line_mar1].
Definition absent_first_fs : fsys := {[ "auth.log"%string := Regular absent_first_log ]}.

(** ** Shapes and histories used by the further properties *)

(** One to three decimal digits. *)
Definition octet (s : text) : Prop :=
  forallb is_digit s = true ∧ (1 ≤ length s ≤ 3)%nat.

(** Four such runs with dots between them. *)
Definition dotted_quad (s : text) : Prop :=
  ∃ a b c d,
    s = a ++ "."%char :: b ++ "."%char :: c ++ "."%char :: d
    ∧ octet a ∧ octet b ∧ octet c ∧ octet d.

(** The timestamps, absent ones included, of the matched lines of one
    address, in the order of the log. *)
Definition ip_stamps (now : Z) (ip : string) (lines : list string)
  : list (option datetime) :=
  omap (fun line =>
          match parse_line now line None with
          | Ok (Some (ip', dt)) => if decide (ip' = ip) then Some dt else None
          | _ => None
          end) lines.

(** The valid ones among them. *)
Definition stamps (now : Z) (ip : string) (lines : list string) : list datetime :=
  omap id (ip_stamps now ip lines).

(** What a first-seen or last-seen dict holds after the lines [pre], for
    the order [R] it keeps the best of: nothing for an address not met, a
    stored [None] for one whose first line had no timestamp, and else a
    timestamp of the address that is [R]-related to all of them. *)
Definition seen_tracks (R : datetime → datetime → Prop) (now : Z)
    (seen : gmap string (option datetime)) (pre : list string) : Prop :=
  ∀ ip,
    match seen !! ip with
    | None => ip_stamps now ip pre = []
    | Some None => head (ip_stamps now ip pre) = Some None ∧ stamps now ip pre = []
    | Some (Some a) =>
        (∃ d0, head (ip_stamps now ip pre) = Some (Some d0))
        ∧ a ∈ stamps now ip pre
        ∧ ∀ d, d ∈ stamps now ip pre → R a d
    end.

(** Both dicts track the lines read so far, each for its own order. *)
Definition tracked (now : Z) (st : analysis) (pre : list string) : Prop :=
  seen_tracks dt_le now (first_seen st) pre
  ∧ seen_tracks (flip dt_le) now (last_seen st) pre.

(** The fields of a datetime in the order of the comparison, and the
    lexicographic comparison of two such lists. *)
Definition dt_fields (d : datetime) : list Z :=
  [dt_year d; dt_month d; dt_day d; dt_hour d; dt_minute d; dt_second d;
   dt_microsecond d].

Fixpoint lcompare (l1 l2 : list Z) : comparison :=
  match l1, l2 with
  | x :: l1', y :: l2' => lex (x ?= y) (lcompare l1' l2')
  | _, _ => Eq
  end.

(** What [analyze_log] returns on [sample_log] in 2026. *)
Definition sample_result : analysis :=
  let apr10 h mi sec := Some (Datetime 2026 4 10 h mi sec 0) in
  Analysis 5 4
    [("1.2.3.4", 2); ("5.6.7.8", 1); ("9.9.9.9", 1)]%string
    {[ "1.2.3.4"%string := apr10 12 34 56; "5.6.7.8"%string := apr10 12 35 1;
       "9.9.9.9"%string := None ]}
    {[ "1.2.3.4"%string := apr10 12 34 56; "5.6.7.8"%string := apr10 12 35 1;
       "9.9.9.9"%string := None ]}.


Definition sample_row : list string :=
  ["1.2.3.4"; "2"; "2026-04-10T12:34:56"; "2026-04-10T12:34:56"]%string.

Definition line_lowercase_month : string :=
  "apr 10 12:34:56 host sshd[1234]: Failed password for root from 1.2.3.4 port 22 ssh2".

(** * Properties *)

(** ** The matcher against the denotation *)

Section matcher.
Implicit Types (r : regex) (s : text) (g : groups) (k : cont).

Lemma captures_matches r s g g' : captures r s g g' → matches r s.
Proof. induction 1; eauto using matches. Qed.

Lemma lit_m_Some l s s' : lit_m l s = Some s' → s = l ++ s'.
Proof.
  revert s; induction l as [|a l IH]; intros [|c s]; simpl; try congruence.
  destruct (Ascii.eqb_spec a c); [|done].
  intros H%IH. by subst.
Qed.

Lemma lit_m_app l s : lit_m l (l ++ s) = Some s.
Proof. induction l as [|a l IH]; simpl; [done|]. by rewrite Ascii.eqb_refl. Qed.

Lemma many_m_sound p s g k m :
  many_m p s g k = Some m →
  ∃ s1 s2, s = s1 ++ s2 ∧ forallb p s1 = true ∧ k s2 g = Some m.
Proof.
  induction s as [|c s IH]; simpl.
  - intros. by exists [], [].
  - destruct (p c) eqn:Hc; [|intros; by exists [], (c :: s)].
    destruct (many_m p s g k) eqn:Hm.
    + intros [= <-]. destruct (IH eq_refl) as (s1 & s2 & -> & Hp & Hk).
      exists (c :: s1), s2. simpl. by rewrite Hc.
    + intros. by exists [], (c :: s).
Qed.

Lemma many_m_fallback p s g k : is_Some (k s g) → is_Some (many_m p s g k).
Proof.
  destruct s as [|c s]; simpl; [done|].
  destruct (p c); [|done]. by destruct (many_m p s g k).
Qed.

Lemma many_m_complete p s1 s2 g k :
  forallb p s1 = true → is_Some (k s2 g) → is_Some (many_m p (s1 ++ s2) g k).
Proof.
  induction s1 as [|c s1 IH]; simpl; [intros _; apply many_m_fallback|].
  intros [Hc Hp]%andb_prop Hk. rewrite Hc.
  destruct (IH Hp Hk) as [m ->]. by eexists.
Qed.

(** Whatever the matcher returns comes from a prefix that the pattern
    denotes, with the groups it sets, and the continuation on the rest. *)
Lemma match_here_sound r : ∀ s g k m,
  match_here r s g k = Some m →
  ∃ s1 s2 g1, s = s1 ++ s2 ∧ captures r s1 g g1 ∧ k s2 g1 = Some m.
Proof.
  induction r as [p|l|r1 IH1 r2 IH2|r1 IH1 r2 IH2|p|lo hi r IH|name r IH];
    intros s g k m; simpl.
  - destruct s as [|c s]; [done|]. destruct (p c) eqn:Hc; [|done].
    intros Hk. exists [c], s, g. eauto using captures.
  - destruct (lit_m l s) as [s'|] eqn:Hl; [|done].
    apply lit_m_Some in Hl as ->. intros Hk. exists l, s', g. eauto using captures.
  - intros (s1 & s' & g1 & -> & Hc1 & H2)%IH1.
    apply IH2 in H2 as (s2 & s3 & g2 & -> & Hc2 & Hk).
    exists (s1 ++ s2), s3, g2. rewrite <-(assoc_L (++)). eauto using captures.
  - destruct (match_here r1 s g k) eqn:H1.
    + intros [= <-]. apply IH1 in H1 as (s1 & s2 & g1 & -> & ? & ?).
      exists s1, s2, g1. eauto using captures.
    + intros (s1 & s2 & g1 & -> & ? & ?)%IH2.
      exists s1, s2, g1. eauto using captures.
  - intros (s1 & s2 & -> & ? & ?)%many_m_sound.
    exists s1, s2, g. eauto using captures.
  - revert lo s g. induction hi as [|hi IHhi]; intros lo s g; simpl.
    + destruct lo; [|done]. intros Hk. exists [], s, g. eauto using captures.
    + assert (match lo with O => k s g | S _ => None end = Some m →
              ∃ s1 s2 g1, s = s1 ++ s2 ∧ captures (Rep lo (S hi) r) s1 g g1
                          ∧ k s2 g1 = Some m) as Hstop.
      { destruct lo; [|done]. intros Hk. exists [], s, g. eauto using captures. }
      destruct (match_here r s g _) eqn:H1; [|done].
      intros [= <-]. apply IH in H1 as (s1 & s' & g1 & -> & Hc1 & H2).
      apply IHhi in H2 as (s2 & s3 & g2 & -> & Hc2 & Hk).
      exists (s1 ++ s2), s3, g2. rewrite <-(assoc_L (++)). eauto using captures.
  - intros (s1 & s2 & g1 & -> & Hc & Hk)%IH.
    exists s1, s2, (<[name := s1]> g1). split; [done|]. split; [by constructor|].
    rewrite <-Hk. do 2 f_equal. rewrite length_app.
    replace (length s1 + length s2 - length s2)%nat with (length s1) by lia.
    by rewrite take_app_length.
Qed.

(** Every prefix the pattern denotes is found, as long as the
    continuation accepts the rest. *)
Lemma match_here_complete r s1 :
  matches r s1 → ∀ s2 g k,
  (∀ g1, is_Some (k s2 g1)) → is_Some (match_here r (s1 ++ s2) g k).
Proof.
  induction 1 as [p c Hc|l|r1 r2 s1 s1' _ IH1 _ IH2|r1 r2 s1 _ IH|r1 r2 s1 _ IH
                 |p s1 Hp|hi r|lo hi r s1 s1' _ IH1 _ IH2|name r s1 _ IH];
    intros s2 g k Hk; simpl.
  - by rewrite Hc.
  - by rewrite lit_m_app.
  - rewrite <-(assoc_L (++)). apply IH1. intros g1. by apply IH2.
  - destruct (IH s2 g k Hk) as [m ->]. by eexists.
  - destruct (match_here r1 (s1 ++ s2) g k); [by eexists|]. by apply IH.
  - by apply many_m_complete.
  - destruct hi; simpl; [done|].
    by destruct (match_here r s2 g _).
  - rewrite <-(assoc_L (++)).
    destruct (IH1 (s1' ++ s2) g (fun s' g' => rep_m (match_here r) (pred lo) hi s' g' k))
      as [m ->]; [|by eexists].
    intros g1. by apply IH2.
  - apply IH. intros g1. apply Hk.
Qed.

Lemma search_sound r s m :
  search r s = Some m →
  ∃ pre mid post, s = pre ++ mid ++ post ∧ captures r mid ∅ m.
Proof.
  induction s as [|c s IH]; simpl.
  - destruct (match_here r [] ∅ _) eqn:H; [|done]. intros [= <-].
    apply match_here_sound in H as (s1 & s2 & g1 & -> & Hc & [= <-]).
    by exists [], s1, s2.
  - destruct (match_here r (c :: s) ∅ _) eqn:H.
    + intros [= <-].
      apply match_here_sound in H as (s1 & s2 & g1 & -> & Hc & [= <-]).
      by exists [], s1, s2.
    + intros (pre & mid & post & -> & Hc)%IH. by exists (c :: pre), mid, post.
Qed.

Lemma search_complete r s : has_match r s → is_Some (search r s).
Proof.
  intros (pre & mid & post & -> & Hm).
  induction pre as [|c pre IH]; simpl.
  - destruct (match_here_complete r mid Hm post ∅ (fun _ g => Some g)) as [m Hs];
      [by eexists|].
    destruct mid, post; simpl in *; rewrite Hs; by eexists.
  - destruct (match_here r (c :: pre ++ mid ++ post) ∅ _); [by eexists|done].
Qed.

Lemma search_None r s : search r s = None ↔ ¬ has_match r s.
Proof.
  split.
  - intros Hs Hm%search_complete. rewrite Hs in Hm. by destruct Hm.
  - intros Hn. destruct (search r s) as [m|] eqn:Hs; [|done].
    destruct Hn. apply search_sound in Hs as (pre & mid & post & -> & Hc).
    exists pre, mid, post. eauto using captures_matches.
Qed.
End matcher.

(** ** What a match object of [PATTERN] holds *)

Section pattern.
Implicit Types (r : regex) (s : text) (g m : groups).

Lemma captures_group_free r s g g' :
  captures r s g g' → group_free r = true → g' = g.
Proof.
  induction 1 as [| |r1 r2 s1 s2 g g1 g2 _ IH1 _ IH2|r1 r2 s g g' _ IH
                 |r1 r2 s g g' _ IH| | |lo hi r s1 s2 g g1 g2 _ IH1 _ IH2|];
    simpl; try done.
  - intros [E1 E2]%andb_prop. rewrite (IH2 E2). auto.
  - intros [E1 E2]%andb_prop. auto.
  - intros [E1 E2]%andb_prop. auto.
  - intros E. rewrite (IH2 E). auto.
Qed.

Lemma matches_rep_cls p : ∀ hi lo s,
  matches (Rep lo hi (Cls p)) s →
  forallb p s = true ∧ (lo ≤ length s ≤ hi)%nat.
Proof.
  induction hi as [|hi IH]; intros lo s H; inversion H; subst; simpl;
    try (split; [done|lia]).
  match goal with H1 : matches (Cls p) _ |- _ => inversion H1; subst end.
  match goal with H2 : matches (Rep _ hi _) _ |- _ => apply IH in H2 as [??] end.
  simpl. split; [by apply andb_true_intro|lia].
Qed.

Lemma is_digit_colon c : is_digit c = true → Ascii.eqb c ":" = false.
Proof. destruct (Ascii.eqb_spec c ":") as [->|]; [by vm_compute|done]. Qed.

Lemma int_digits s : s ≠ [] → forallb is_digit s = true → ∃ n, int s = Ok n.
Proof. intros ? Hd. unfold int. destruct s; [done|]. rewrite Hd. by eexists. Qed.

Lemma matches_two_digits s :
  matches (Rep 2 2 (Cls is_digit)) s →
  ∃ a b, s = [a; b] ∧ is_digit a = true ∧ is_digit b = true.
Proof.
  intros [Hd Hlen]%matches_rep_cls.
  destruct s as [|a [|b [|c s]]]; simpl in *; try lia.
  apply andb_prop in Hd as [? [? _]%andb_prop]. by exists a, b.
Qed.

Lemma matches_time t :
  matches TIME_RE t →
  ∃ h mi sec, mapM int (split ":" t) = Ok [h; mi; sec].
Proof.
  unfold TIME_RE. intros H.
  repeat match goal with
    | H : matches (Seq _ _) _ |- _ => inversion H; clear H; subst
    | H : matches (Lit _) _ |- _ => inversion H; clear H; subst
    | H : matches (Rep 2 2 _) _ |- _ =>
        apply matches_two_digits in H as (? & ? & -> & ? & ?)
    end.
  simpl. rewrite !is_digit_colon by done. simpl.
  repeat match goal with
    | H : is_digit _ = true |- _ => rewrite H; clear H
    end.
  simpl. by eexists _, _, _.
Qed.

Lemma group_insert_eq g name x : group (<[name := x]> g) name = x.
Proof. apply lookup_total_insert_eq. Qed.

Lemma group_insert_ne g name name' x :
  name ≠ name' → group (<[name := x]> g) name' = group g name'.
Proof. apply lookup_total_insert_ne. Qed.

(** The four groups of a match are set, each to text of its shape. *)
Lemma captures_PATTERN s m :
  captures PATTERN s ∅ m →
  ∃ mo d t ip,
    m = <["ip" := ip]> (<["time" := t]> (<["day" := d]> (<["month" := mo]> ∅)))
    ∧ matches (Rep 3 3 (Cls is_word)) mo
    ∧ matches (Rep 1 2 (Cls is_digit)) d
    ∧ matches TIME_RE t
    ∧ matches IP_RE ip.
Proof.
  unfold PATTERN, Some1. intros H.
  repeat match goal with
    | H : captures (Seq _ _) _ _ _ |- _ => inversion H; clear H; subst
    | H : captures (Group _ _) _ _ _ |- _ => inversion H; clear H; subst
    | H : captures (Cls _) _ _ _ |- _ => inversion H; clear H; subst
    | H : captures (Lit _) _ _ _ |- _ => inversion H; clear H; subst
    | H : captures (Many _) _ _ _ |- _ => inversion H; clear H; subst
    | H : captures TRIGGER_RE _ _ _ |- _ =>
        apply captures_group_free in H as ->; [|done]
    end.
  repeat match goal with
    | H : captures _ _ ?g ?g' |- _ =>
        pose proof (captures_matches _ _ _ _ H);
        apply captures_group_free in H as ->; [|done]
    end.
  by eexists _, _, _, _.
Qed.

Lemma search_PATTERN_fields s m :
  search PATTERN s = Some m →
  ∃ d h mi sec, day_of m = Ok d ∧ time_of m = Ok [h; mi; sec].
Proof.
  intros (pre & mid & post & -> & Hc)%search_sound.
  apply captures_PATTERN in Hc as (mo & d & t & ip & -> & _ & Hd & Ht & _).
  unfold day_of, time_of.
  rewrite (group_insert_ne _ "ip" "day"), (group_insert_ne _ "time" "day"),
    group_insert_eq, (group_insert_ne _ "ip" "time"), group_insert_eq
    by discriminate.
  apply matches_rep_cls in Hd as [Hd Hlen].
  destruct (int_digits d) as [n ->]; [by destruct d; simpl in *; try lia|done|].
  destruct (matches_time t Ht) as (h & mi & sec & ->).
  by eexists _, _, _, _.
Qed.

(** [parse_line] raises nothing. *)
Lemma parse_line_returns now line year :
  ∃ res, parse_line now line year = Ok res.
Proof.
  unfold parse_line. destruct (search PATTERN (chars line)) as [m|] eqn:Hs.
  - destruct (search_PATTERN_fields _ _ Hs) as (d & h & mi & sec & -> & _).
    by eexists.
  - by eexists.
Qed.

Lemma contains_app_r needle a b : contains needle b → contains needle (a ++ b).
Proof.
  intros (pre & post & ->). exists (a ++ pre), post. by rewrite <-(assoc_L (++)).
Qed.

Lemma contains_app_l needle a b : contains needle a → contains needle (a ++ b).
Proof.
  intros (pre & post & ->). exists pre, (post ++ b). by rewrite <-!(assoc_L (++)).
Qed.

Lemma contains_prefix needle b : contains needle (needle ++ b).
Proof. by exists [], b. Qed.

Lemma has_match_app_r r a b : has_match r b → has_match r (a ++ b).
Proof.
  intros (pre & mid & post & -> & ?). exists (a ++ pre), mid, post.
  by rewrite <-(assoc_L (++)).
Qed.

Lemma has_match_app_l r a b : has_match r a → has_match r (a ++ b).
Proof.
  intros (pre & mid & post & -> & ?). exists pre, mid, (post ++ b).
  by rewrite <-!(assoc_L (++)).
Qed.

Lemma has_match_prefix r mid b : matches r mid → has_match r (mid ++ b).
Proof. intros ?. by exists [], mid, b. Qed.

Lemma has_match_PATTERN_parts s :
  has_match PATTERN s →
  contains (chars "sshd") s ∧ has_match TRIGGER_RE s ∧ has_match FROM_IP_RE s.
Proof.
  intros (pre & mid & post & -> & H). unfold PATTERN in H.
  repeat match goal with
    | H : matches (Seq _ _) _ |- _ => inversion H; clear H; subst
    | H : matches (Group _ _) _ |- _ => inversion H; clear H; subst
    | H : matches (Lit _) _ |- _ => inversion H; clear H; subst
    end.
  split_and!.
  - apply contains_app_r, contains_app_l.
    do 6 apply contains_app_r. apply contains_prefix.
  - apply has_match_app_r, has_match_app_l.
    do 8 apply has_match_app_r. by apply has_match_prefix.
  - apply has_match_app_r, has_match_app_l.
    do 10 apply has_match_app_r.
    rewrite <-(app_nil_r (_ ++ _ ++ _)). apply has_match_prefix.
    unfold FROM_IP_RE. eauto using matches.
Qed.
End pattern.

(** ** [parse_line] *)

Section parse_line.
Implicit Types (line : string) (m : groups).

Lemma search_has_match r s m : search r s = Some m → has_match r s.
Proof.
  intros (pre & mid & post & -> & Hc)%search_sound.
  exists pre, mid, post. eauto using captures_matches.
Qed.

Lemma parse_line_None now line year :
  parse_line now line year = Ok None ↔ search PATTERN (chars line) = None.
Proof.
  unfold parse_line. destruct (search PATTERN (chars line)) as [m|]; [|done].
  split; [|done]. by destruct (day_of m).
Qed.

Lemma datetime_ok_valid y mo d h mi sec :
  datetime_ok (Datetime y mo d h mi sec 0) = true ↔ valid_calendar y mo d h mi sec.
Proof.
  unfold datetime_ok, valid_calendar, between; simpl.
  rewrite !andb_true_iff, !Z.leb_le. lia.
Qed.

Lemma datetime_new_invalid y mo d h mi sec :
  ¬ valid_calendar y mo d h mi sec →
  except_none (datetime_new y mo d [h; mi; sec]) = None.
Proof.
  intros Hv. simpl. destruct (datetime_ok _) eqn:Hok; [|done].
  by apply datetime_ok_valid in Hok.
Qed.

Lemma datetime_new_valid y mo d h mi sec :
  valid_calendar y mo d h mi sec →
  datetime_new y mo d [h; mi; sec] = Ok (Datetime y mo d h mi sec 0).
Proof. intros Hv%datetime_ok_valid. simpl. by rewrite Hv. Qed.

(** A matched line whose fields are no calendar date still yields its
    address, with no timestamp. *)
Lemma parse_line_invalid_date now line year m d h mi sec :
  search PATTERN (chars line) = Some m →
  day_of m = Ok d → time_of m = Ok [h; mi; sec] →
  ¬ valid_calendar (default now year) (month_of m) d h mi sec →
  parse_line now line year = Ok (Some (str (group m "ip"), None)).
Proof.
  intros Hs Hd Ht Hv. unfold parse_line. rewrite Hs, Hd, Ht. simpl.
  destruct year as [y|]; simpl in Hv;
    pose proof (datetime_new_invalid _ _ _ _ _ _ Hv) as Hn; simpl in Hn;
    by rewrite Hn.
Qed.
End parse_line.

(** ** The counter *)

Section counter.
Implicit Types (ip : string) (c : list (string * Z)).

Lemma counter_get_incr_eq ip c :
  counter_get ip (counter_incr ip c) = counter_get ip c + 1.
Proof.
  induction c as [|[k v] c IH]; simpl; repeat (case_decide; simpl); done.
Qed.

Lemma counter_get_incr_ne ip ip' c :
  ip ≠ ip' → counter_get ip' (counter_incr ip c) = counter_get ip' c.
Proof.
  intros Hne.
  induction c as [|[k v] c IH]; simpl; repeat (case_decide; simpl); congruence.
Qed.

(** A new address goes to the end of the keys; a known one changes
    nothing in them. *)
Lemma counter_incr_keys ip c :
  (counter_incr ip c).*1 = if decide (ip ∈ c.*1) then c.*1 else c.*1 ++ [ip].
Proof.
  induction c as [|[k v] c IH]; csimpl; [done|].
  destruct (decide (k = ip)) as [->|Hne]; csimpl.
  - rewrite decide_True; [done|]. apply list_elem_of_here.
  - rewrite IH. destruct (decide (ip ∈ c.*1)) as [Hin|Hout].
    + rewrite decide_True; [done|]. by apply list_elem_of_further.
    + rewrite decide_False; [done|].
      intros [?|?]%elem_of_cons; congruence.
Qed.

Lemma counter_incr_sum ip c :
  sum_Z (counter_incr ip c).*2 = sum_Z c.*2 + 1.
Proof.
  induction c as [|[k v] c IH]; csimpl; [done|].
  destruct (decide (k = ip)); csimpl; unfold sum_Z in *; simpl in *; lia.
Qed.

Lemma counter_incr_positive ip c :
  Forall (fun e => 1 ≤ e.2) c → Forall (fun e => 1 ≤ e.2) (counter_incr ip c).
Proof.
  induction 1 as [|[k v] c Hv Hc IH]; simpl.
  - by repeat constructor.
  - simpl in Hv. destruct (decide (k = ip)); constructor; simpl; try done; lia.
Qed.

Lemma counter_incr_NoDup ip c : NoDup c.*1 → NoDup (counter_incr ip c).*1.
Proof.
  intros Hnd. rewrite counter_incr_keys. case_decide; [done|].
  apply NoDup_app. split_and!; [done| |apply NoDup_singleton].
  intros x Hx ->%list_elem_of_singleton. done.
Qed.

Lemma counter_get_positive ip c :
  Forall (fun e => 1 ≤ e.2) c → (1 ≤ counter_get ip c ↔ ip ∈ c.*1).
Proof.
  induction 1 as [|[k v] c Hv Hc IH]; simpl.
  - split; [lia|]. by intros ?%not_elem_of_nil.
  - simpl in Hv. destruct (decide (k = ip)) as [->|Hne].
    + split; [intros _; apply list_elem_of_here|done].
    + rewrite IH, elem_of_cons. split; [by right|]. by intros [?|?].
Qed.
End counter.

(** ** Datetime order *)

Section order.
Implicit Types a b : datetime.

Lemma lex_opp c1 c2 : CompOpp (lex c1 c2) = lex (CompOpp c1) (CompOpp c2).
Proof. by destruct c1. Qed.

Lemma dt_compare_antisym a b : dt_compare b a = CompOpp (dt_compare a b).
Proof.
  unfold dt_compare. rewrite !lex_opp.
  by rewrite <-!Z.compare_antisym.
Qed.

Lemma dt_compare_refl a : dt_compare a a = Eq.
Proof. unfold dt_compare. by rewrite !Z.compare_refl. Qed.

Lemma dt_le_refl a : dt_le a a.
Proof. unfold dt_le. by rewrite dt_compare_refl. Qed.

Lemma dt_gtb_false_le a b : dt_gtb a b = false → dt_le a b.
Proof. unfold dt_gtb, dt_le. by destruct (dt_compare a b). Qed.

Lemma dt_ltb_false_le a b : dt_ltb a b = false → dt_le b a.
Proof.
  unfold dt_ltb, dt_le. rewrite (dt_compare_antisym a b).
  by destruct (dt_compare a b).
Qed.
End order.

(** ** One line of the loop *)

Section step.
Implicit Types (st : analysis) (line ip : string) (dt : option datetime).
Implicit Types seen : gmap string (option datetime).

Lemma update_seen_dom beats ip dt seen seen' :
  update_seen beats ip dt seen = Ok seen' → dom seen' = {[ip]} ∪ dom seen.
Proof.
  unfold update_seen. destruct (seen !! ip) as [cur|] eqn:Hip.
  - assert (dom seen = {[ip]} ∪ dom seen) as Hdom.
    { apply elem_of_dom_2 in Hip. set_solver. }
    destruct dt as [d|]; [|by intros [= <-]].
    destruct cur as [c|]; [|done]. intros [= <-].
    destruct (beats d c); [|done]. by rewrite dom_insert_L.
  - intros [= <-]. by rewrite dom_insert_L.
Qed.

Lemma update_seen_other beats ip ip' dt seen seen' :
  update_seen beats ip dt seen = Ok seen' → ip ≠ ip' → seen' !! ip' = seen !! ip'.
Proof.
  unfold update_seen. intros Hu Hne.
  destruct (seen !! ip) as [[c|]|], dt as [d|]; simplify_eq; try done;
    try (by rewrite lookup_insert_ne).
  destruct (beats d c); [by rewrite lookup_insert_ne|done].
Qed.

(** An absent timestamp never raises: it fills a missing entry and
    leaves an existing one alone. *)
Lemma update_seen_absent beats ip seen :
  update_seen beats ip None seen
  = Ok (match seen !! ip with Some _ => seen | None => <[ip := None]> seen end).
Proof. unfold update_seen. by destruct (seen !! ip). Qed.

(** A timestamp against a stored [None] raises. *)
Lemma update_seen_raises beats ip d seen :
  seen !! ip = Some None → update_seen beats ip (Some d) seen = Raise TypeError.
Proof. unfold update_seen. by intros ->. Qed.

(** What a successful step did. *)
Lemma analyze_step_Ok now st line st' :
  analyze_step now st line = Ok st' →
  (parse_line now line None = Ok None
   ∧ st' = Analysis (total_lines st + 1) (matched_lines st) (counts st)
             (first_seen st) (last_seen st))
  ∨ (∃ ip dt fs ls,
      parse_line now line None = Ok (Some (ip, dt))
      ∧ update_seen dt_ltb ip dt (first_seen st) = Ok fs
      ∧ update_seen dt_gtb ip dt (last_seen st) = Ok ls
      ∧ st' = Analysis (total_lines st + 1) (matched_lines st + 1)
                (counter_incr ip (counts st)) fs ls).
Proof.
  unfold analyze_step.
  destruct (parse_line now line None) as [[[ip dt]|]|]; simpl; [| |done].
  - destruct (update_seen dt_ltb _ _ _) as [fs|] eqn:Hf; simpl; [|done].
    destruct (update_seen dt_gtb _ _ _) as [ls|] eqn:Hl; simpl; [|done].
    intros [= <-]. right. by exists ip, dt, fs, ls.
  - intros [= <-]. by left.
Qed.

Lemma consistent_init : consistent analysis_init.
Proof. split; simpl; try done; constructor. Qed.

Lemma consistent_step now st line st' :
  consistent st → analyze_step now st line = Ok st' → consistent st'.
Proof.
  intros [Hf Hl Hnd Hpos Hsum]
    [[_ ->]|(ip & dt & fs & ls & _ & Hfs & Hls & ->)]%analyze_step_Ok;
    [by split|].
  assert (list_to_set (counter_incr ip (counts st)).*1
          =@{gset string} {[ip]} ∪ list_to_set (counts st).*1) as Hkeys.
  { rewrite counter_incr_keys. case_decide as Hin.
    - apply (elem_of_list_to_set (C:=gset string)) in Hin. set_solver.
    - rewrite list_to_set_app_L. simpl. set_solver. }
  split; simpl.
  - rewrite (update_seen_dom _ _ _ _ _ Hfs), Hf. by rewrite Hkeys.
  - rewrite (update_seen_dom _ _ _ _ _ Hls), Hl. by rewrite Hkeys.
  - by apply counter_incr_NoDup.
  - by apply counter_incr_positive.
  - rewrite counter_incr_sum. lia.
Qed.

Lemma seen_ordered_init : seen_ordered analysis_init.
Proof. intros ip a b. simpl. by rewrite lookup_empty. Qed.

(** A new value of an entry is the timestamp of the line, or the old
    value when the line does not beat it. *)
Lemma update_seen_lookup beats ip dt seen seen' v :
  update_seen beats ip dt seen = Ok seen' → seen' !! ip = Some (Some v) →
  dt = Some v
  ∨ (seen !! ip = Some (Some v) ∧ ∀ d, dt = Some d → beats d v = false).
Proof.
  unfold update_seen. destruct (seen !! ip) as [cur|] eqn:Hip.
  - destruct dt as [d|].
    + destruct cur as [c|]; [|done]. intros [= <-].
      destruct (beats d c) eqn:Hb.
      * rewrite lookup_insert_eq. intros [= <-]. by left.
      * rewrite Hip. intros [= <-]. right. split; [done|]. by intros ? [= <-].
    + intros [= <-]. rewrite Hip. intros [= <-]. by right.
  - intros [= <-]. rewrite lookup_insert_eq. intros [= ->]. by left.
Qed.

Lemma seen_ordered_step now st line st' :
  seen_ordered st → analyze_step now st line = Ok st' → seen_ordered st'.
Proof.
  intros Hord [[_ ->]|(ip & dt & fs & ls & _ & Hfs & Hls & ->)]%analyze_step_Ok;
    [done|].
  intros ip' a b; simpl. destruct (decide (ip = ip')) as [<-|Hne].
  - intros Ha Hb.
    destruct (update_seen_lookup _ _ _ _ _ _ Hfs Ha) as [->|[Ha' Hna]],
             (update_seen_lookup _ _ _ _ _ _ Hls Hb) as [Hd|[Hb' Hnb]].
    + injection Hd as ->. apply dt_le_refl.
    + apply dt_gtb_false_le. by apply Hnb.
    + subst dt. apply dt_ltb_false_le. by apply Hna.
    + by apply (Hord ip).
  - rewrite (update_seen_other _ _ _ _ _ _ Hfs Hne),
      (update_seen_other _ _ _ _ _ _ Hls Hne). apply Hord.
Qed.
End step.

(** ** The whole loop *)

Section loop.
Implicit Types (st : analysis) (line ip : string) (lines : list string).

Lemma analyze_loop_app now st lines1 lines2 :
  analyze_loop now st (lines1 ++ lines2)
  = st' ← analyze_loop now st lines1; analyze_loop now st' lines2.
Proof.
  revert st. induction lines1 as [|line lines1 IH]; intros st; simpl; [done|].
  destruct (analyze_step now st line) as [st1|]; simpl; [apply IH|done].
Qed.

(** A property that every successful step keeps holds when the loop ends. *)
Lemma analyze_loop_invariant (I : analysis → Prop) now :
  (∀ st line st', I st → analyze_step now st line = Ok st' → I st') →
  ∀ lines st st', I st → analyze_loop now st lines = Ok st' → I st'.
Proof.
  intros Hstep lines. induction lines as [|line lines IH]; intros st st' HI; simpl.
  - by intros [= <-].
  - destruct (analyze_step now st line) as [st1|] eqn:H1; simpl; [|done].
    apply IH. by eapply Hstep.
Qed.

Lemma analyze_loop_consistent now lines st' :
  analyze_loop now analysis_init lines = Ok st' → consistent st'.
Proof.
  apply (analyze_loop_invariant consistent);
    eauto using consistent_step, consistent_init.
Qed.

Lemma analyze_loop_ordered now lines st' :
  analyze_loop now analysis_init lines = Ok st' → seen_ordered st'.
Proof.
  apply (analyze_loop_invariant seen_ordered);
    eauto using seen_ordered_step, seen_ordered_init.
Qed.

(** The two line counters. *)
Lemma analyze_loop_counters now lines : ∀ st st',
  analyze_loop now st lines = Ok st' →
  total_lines st' = total_lines st + Z.of_nat (length lines)
  ∧ matched_lines st'
    = matched_lines st + Z.of_nat (length (List.filter (is_matched now) lines)).
Proof.
  induction lines as [|line lines IH]; intros st st'; simpl.
  - intros [= <-]. lia.
  - destruct (analyze_step now st line) as [st1|] eqn:H1; simpl; [|done].
    intros [Ht Hm]%IH. rewrite Ht, Hm. unfold is_matched.
    apply analyze_step_Ok in H1
      as [[-> ->]|(ip & dt & fs & ls & -> & _ & _ & ->)]; simpl; lia.
Qed.

Lemma update_seen_present beats ip d (seen : gmap string (option datetime)) :
  (∀ ip', seen !! ip' ≠ Some None) →
  ∃ seen', update_seen beats ip (Some d) seen = Ok seen'
           ∧ ∀ ip', seen' !! ip' ≠ Some None.
Proof.
  intros Hseen. pose proof (Hseen ip) as Hip. unfold update_seen.
  assert (∀ ip', <[ip := Some d]> seen !! ip' ≠ Some None) as Hins.
  { intros ip'. destruct (decide (ip = ip')) as [<-|Hne].
    - by rewrite lookup_insert_eq.
    - by rewrite lookup_insert_ne. }
  destruct (seen !! ip) as [[c|]|]; [|done|by eexists].
  destruct (beats d c); by eexists.
Qed.

(** With valid timestamps only, no entry is ever [None] and no step
    raises. *)
Lemma seen_present_step now st line :
  seen_present st → valid_stamped now line →
  ∃ st', analyze_step now st line = Ok st' ∧ seen_present st'.
Proof.
  intros Hp [Hn|(ip & d & Hs)]; unfold analyze_step.
  - rewrite Hn. simpl. by eexists.
  - rewrite Hs. simpl.
    destruct (update_seen_present dt_ltb ip d (first_seen st))
      as (fs & -> & Hfs); [apply Hp|].
    destruct (update_seen_present dt_gtb ip d (last_seen st))
      as (ls & -> & Hls); [apply Hp|].
    simpl. eexists. split; [done|]. intros ip'. simpl. auto.
Qed.

Lemma analyze_loop_valid now lines : ∀ st,
  seen_present st → Forall (valid_stamped now) lines →
  ∃ st', analyze_loop now st lines = Ok st'.
Proof.
  induction lines as [|line lines IH]; intros st Hp Hv; simpl; [by eexists|].
  apply Forall_cons in Hv as [Hv Hvs].
  destruct (seen_present_step now st line Hp Hv) as (st1 & -> & Hp1). simpl.
  by apply IH.
Qed.

Lemma seen_present_init : seen_present analysis_init.
Proof. intros ip. simpl. by rewrite lookup_empty. Qed.

(** The keys of the counter are the matched addresses in the order in
    which each one first turned up. *)
Lemma filter_filter_not_in (acc : list string) x (l : list string) :
  filter (fun y => y ∉ acc ++ [x]) l
  = filter (fun y => y ∉ acc) (filter (fun y => y ≠ x) l).
Proof.
  rewrite list_filter_filter. apply list_filter_iff. intros y.
  rewrite elem_of_app, list_elem_of_singleton. tauto.
Qed.

Lemma filter_not_in_absorb (acc : list string) x (l : list string) :
  x ∈ acc →
  filter (fun y => y ∉ acc) (filter (fun y => y ≠ x) l)
  = filter (fun y => y ∉ acc) l.
Proof.
  intros Hin. rewrite list_filter_filter. apply list_filter_iff. intros y.
  split; [tauto|]. intros Hy. split; [done|]. by intros ->.
Qed.

Lemma filter_not_in_nil (l : list string) : filter (fun y => y ∉ []) l = l.
Proof.
  induction l as [|x l IH]; [done|].
  rewrite filter_cons_True by apply not_elem_of_nil. by rewrite IH.
Qed.

Lemma analyze_loop_keys now lines : ∀ st st',
  analyze_loop now st lines = Ok st' →
  (counts st').*1
  = (counts st).*1
    ++ filter (fun y => y ∉ (counts st).*1)
         (first_occurrences (omap (matched_ip now) lines)).
Proof.
  induction lines as [|line lines IH]; intros st st'; simpl.
  - intros [= <-]. by rewrite app_nil_r.
  - destruct (analyze_step now st line) as [st1|] eqn:H1; simpl; [|done].
    intros ->%IH. unfold matched_ip at 2.
    apply analyze_step_Ok in H1
      as [[-> ->]|(ip & dt & fs & ls & -> & _ & _ & ->)]; simpl; [done|].
    rewrite counter_incr_keys. case_decide as Hin.
    + rewrite filter_cons_False by tauto. by rewrite filter_not_in_absorb.
    + rewrite filter_cons_True by done.
      rewrite <-(assoc_L (++)). simpl. by rewrite filter_filter_not_in.
Qed.
End loop.

(** ** Ranking *)

Section ranking.
Implicit Types (x y : string * Z) (l : list (string * Z)).

Lemma insert_desc_Permutation x l : insert_desc x l ≡ₚ x :: l.
Proof.
  induction l as [|y l IH]; simpl; [done|].
  destruct (x.2 <? y.2); [|done]. rewrite IH. apply Permutation_swap.
Qed.

Lemma sorted_desc_Permutation l : sorted_desc l ≡ₚ l.
Proof.
  induction l as [|x l IH]; simpl; [done|].
  by rewrite insert_desc_Permutation, IH.
Qed.

Lemma insert_desc_HdRel x y l :
  count_ge y x → HdRel count_ge y l → HdRel count_ge y (insert_desc x l).
Proof.
  intros Hyx Hhd. destruct l as [|z l]; simpl; [by constructor|].
  destruct (x.2 <? z.2); constructor; [|done]. by inversion Hhd.
Qed.

Lemma insert_desc_Sorted x l :
  Sorted count_ge l → Sorted count_ge (insert_desc x l).
Proof.
  induction 1 as [|y l Hs IH Hhd]; simpl; [by repeat constructor|].
  destruct (Z.ltb_spec x.2 y.2) as [Hlt|Hge].
  - constructor; [done|]. apply insert_desc_HdRel; [|done].
    unfold count_ge. lia.
  - constructor; [by constructor|]. constructor. unfold count_ge. lia.
Qed.

Lemma sorted_desc_Sorted l : Sorted count_ge (sorted_desc l).
Proof.
  induction l as [|x l IH]; simpl; [constructor|]. by apply insert_desc_Sorted.
Qed.

(** Entries of one count keep the order they had. *)
Lemma insert_desc_stable c x l :
  filter (fun e => e.2 = c) (insert_desc x l) = filter (fun e => e.2 = c) (x :: l).
Proof.
  induction l as [|y l IH]; simpl; [done|].
  destruct (Z.ltb_spec x.2 y.2) as [Hlt|Hge]; [|done].
  rewrite (filter_cons _ y), IH, !(filter_cons _ x), (filter_cons _ y).
  repeat case_decide; try done; lia.
Qed.

Lemma sorted_desc_stable c l :
  filter (fun e => e.2 = c) (sorted_desc l) = filter (fun e => e.2 = c) l.
Proof.
  induction l as [|x l IH]; simpl; [done|].
  by rewrite insert_desc_stable, !(filter_cons _ x), IH.
Qed.

Lemma sorted_desc_length l : length (sorted_desc l) = length l.
Proof. by rewrite sorted_desc_Permutation. Qed.

End ranking.

(** ** Decimal text *)

Section decimal.
Lemma digits_fold_acc d : ∀ acc,
  fold_left digit_step (chars (NilEmpty.string_of_uint d)) (Z.pos acc)
  = Z.pos (Pos.of_uint_acc d acc).
Proof.
  induction d; intros acc; simpl; try done;
    rewrite <-IHd; f_equal; unfold digit_step, code; simpl; lia.
Qed.

Lemma digits_fold d :
  fold_left digit_step (chars (NilEmpty.string_of_uint d)) 0 = Z.of_N (Pos.of_uint d).
Proof.
  induction d; simpl; try done; rewrite <-digits_fold_acc; reflexivity.
Qed.

Lemma digits_are_digits d :
  forallb is_digit (chars (NilEmpty.string_of_uint d)) = true.
Proof. induction d; simpl; done. Qed.

Lemma int_Ok s :
  s ≠ [] → forallb is_digit s = true → int s = Ok (fold_left digit_step s 0).
Proof. intros Hs Hd. unfold int. destruct s; [done|]. by rewrite Hd. Qed.

Lemma string_of_uint_nonnil d :
  d ≠ Decimal.Nil →
  NilZero.string_of_uint d = NilEmpty.string_of_uint d
  ∧ chars (NilEmpty.string_of_uint d) ≠ [].
Proof. by destruct d. Qed.

(** [int(str(n)) = n] for a count. *)
Lemma int_str_Z n : 0 ≤ n → int (chars (str_Z n)) = Ok n.
Proof.
  intros Hn. destruct n as [|p|p]; [done| |lia].
  unfold str_Z. simpl.
  destruct (string_of_uint_nonnil (Pos.to_uint p)) as [-> Hne];
    [apply DecimalPos.Unsigned.to_uint_nonnil|].
  rewrite int_Ok by auto using digits_are_digits.
  by rewrite digits_fold, DecimalPos.Unsigned.of_to.
Qed.
End decimal.

(** * The claims of the specification *)

Section claims.
Implicit Types (st res : analysis) (line ip path : string).
Implicit Types (lines : list string) (fs : fsys).

Lemma analyze_log_Ok now fs path top_n res :
  analyze_log now fs path top_n = Ok res →
  ∃ lines, open_read fs path = Ok lines
           ∧ analyze_loop now analysis_init lines = Ok res.
Proof.
  unfold analyze_log.
  destruct (open_read fs path) as [lines|]; simpl; [|done]. by exists lines.
Qed.

Lemma analyze_log_Regular now fs path top_n lines :
  fs !! path = Some (Regular lines) →
  analyze_log now fs path top_n = analyze_loop now analysis_init lines.
Proof. unfold analyze_log, open_read. by intros ->. Qed.

(** A timestamp that arrives for an address whose stored first or last
    seen is [None] makes the step raise [TypeError]. *)
Lemma update_seen_raise_TypeError beats ip dt
    (seen : gmap string (option datetime)) e :
  update_seen beats ip dt seen = Raise e → e = TypeError.
Proof.
  unfold update_seen. destruct (seen !! ip) as [[c|]|], dt as [d|]; congruence.
Qed.

Lemma analyze_step_absent_raises now st line ip d :
  parse_line now line None = Ok (Some (ip, Some d)) →
  first_seen st !! ip = Some None ∨ last_seen st !! ip = Some None →
  analyze_step now st line = Raise TypeError.
Proof.
  intros Hp Habs. unfold analyze_step. rewrite Hp. simpl.
  destruct Habs as [Hf|Hl].
  - by rewrite (update_seen_raises _ _ _ _ Hf).
  - destruct (update_seen dt_ltb _ _ _) as [fs'|e] eqn:Hfs; simpl.
    + by rewrite (update_seen_raises _ _ _ _ Hl).
    + by rewrite (update_seen_raise_TypeError _ _ _ _ _ Hfs).
Qed.
End claims.

(** C1.  The claim: once an address has an absent first (or last) seen,
    a later valid timestamp for it replaces the absent value and the
    analysis completes.  The code instead compares the new timestamp with
    [None]: on the log "Feb 30 ..." then "Mar  1 ..." for the same
    address, [analyze_log] raises [TypeError], and [main], which catches
    [FileNotFoundError] only, ends with that exception after printing
    nothing. *)
Theorem absent_first_seen_then_timestamp_raises :
  parse_line 2026 line_feb30 None = Ok (Some ("9.9.9.9"%string, None))
  ∧ (∃ d, parse_line 2026 line_mar1 None = Ok (Some ("9.9.9.9"%string, Some d)))
  ∧ analyze_log 2026 absent_first_fs "auth.log" 10 = Raise TypeError
  ∧ main 2026 absent_first_fs (Args "auth.log" 10 (Some "out.csv"%string))
    = Effects [] [] (Raise TypeError).
Proof. split_and!; [|eexists|..]; vm_compute; reflexivity. Qed.

(** C2, as the specification states it: [parse_line] returns no match
    exactly when the line lacks [sshd], lacks both trigger phrases, or
    lacks [from] with a dotted quad.  It is false for a line that has all
    three but no timestamp in front. *)
Lemma no_match_iff_lacks_part_counterexample :
  ¬ (parse_line 2026 line_no_stamp None = Ok None
     ↔ lacks_required_part line_no_stamp).
Proof.
  intros [Hlacks _].
  destruct Hlacks as [H|[H|H]]; [by vm_compute|apply H..].
  - by exists [], (chars "[1234]: Failed password for Invalid user admin from 1.2.3.4").
  - eapply search_has_match. vm_compute. reflexivity.
  - eapply search_has_match. vm_compute. reflexivity.
Qed.

(** C2, amended: [parse_line] returns no match exactly when no part of
    the line is a match of the whole pattern (month, day, time, then
    [sshd], then a trigger phrase, then [from], white space and a dotted
    quad, in this order); so a line that lacks [sshd], both trigger
    phrases or [from] with a dotted quad is never matched. *)
Theorem no_match_iff_pattern_absent now line year :
  (parse_line now line year = Ok None ↔ ¬ has_match PATTERN (chars line))
  ∧ (lacks_required_part line → parse_line now line year = Ok None).
Proof.
  assert (parse_line now line year = Ok None ↔ ¬ has_match PATTERN (chars line))
    as Hiff by (by rewrite parse_line_None, search_None).
  split; [done|]. intros Hlacks. apply Hiff.
  intros (Hs & Ht & Hf)%has_match_PATTERN_parts.
  by destruct Hlacks as [H|[H|H]].
Qed.

Lemma no_match_iff_pattern_absent_witness :
  lacks_required_part line_cron ∧ parse_line 2026 line_cron None = Ok None.
Proof.
  assert (lacks_required_part line_cron) as Hlacks.
  { left. intros Hc. assert (has_match (Lit (chars "sshd")) (chars line_cron)) as Hm.
    { destruct Hc as (pre & post & ->). exists pre, (chars "sshd"), post.
      split; [done|constructor]. }
    apply search_None in Hm; [done|]. vm_compute. reflexivity. }
  split; [done|].
  exact (proj2 (no_match_iff_pattern_absent 2026 line_cron None) Hlacks).
Defined.

(** C3.  A line that matches the pattern but whose fields are no
    calendar date: [parse_line] returns the address with no timestamp;
    whatever came before, the step of [analyze_log] for that line raises
    nothing and adds one to [total_lines], to [matched_lines] and to the
    count of the address; and a log made of that line alone is analysed
    and summarised with nothing else printed. *)
Theorem invalid_date_still_counted now line m d h mi sec :
  search PATTERN (chars line) = Some m →
  day_of m = Ok d → time_of m = Ok [h; mi; sec] →
  ¬ valid_calendar now (month_of m) d h mi sec →
  let ip := str (group m "ip") in
  parse_line now line None = Ok (Some (ip, None))
  ∧ (∀ st, ∃ st',
       analyze_step now st line = Ok st'
       ∧ total_lines st' = total_lines st + 1
       ∧ matched_lines st' = matched_lines st + 1
       ∧ counter_get ip (counts st') = counter_get ip (counts st) + 1)
  ∧ (∀ path top_n, ∃ res,
       analyze_log now {[ path := Regular [line] ]} path top_n = Ok res
       ∧ matched_lines res = 1
       ∧ counts res = [(ip, 1)]
       ∧ main now {[ path := Regular [line] ]} (Args path top_n None)
         = Effects (pretty_print_summary res top_n) [] (Ok ())).
Proof.
  intros Hs Hd Ht Hv ip.
  pose proof (parse_line_invalid_date now line None m d h mi sec Hs Hd Ht Hv) as Hp.
  fold ip in Hp.
  assert (∀ st, analyze_step now st line
     = Ok (Analysis (total_lines st + 1) (matched_lines st + 1)
             (counter_incr ip (counts st))
             (match first_seen st !! ip with
              | Some _ => first_seen st | None => <[ip := None]> (first_seen st)
              end)
             (match last_seen st !! ip with
              | Some _ => last_seen st | None => <[ip := None]> (last_seen st)
              end))) as Hstep.
  { intros st. unfold analyze_step. rewrite Hp. simpl.
    by rewrite !update_seen_absent. }
  split_and!; [done| |].
  - intros st. eexists. split; [apply Hstep|]. simpl.
    by rewrite counter_get_incr_eq.
  - intros path top_n.
    pose proof (analyze_log_Regular now {[ path := Regular [line] ]} path top_n
                  [line] (lookup_singleton_eq _ _)) as Hlog.
    simpl in Hlog. rewrite Hstep in Hlog. simpl in Hlog.
    eexists. split_and!; [exact Hlog|done..|].
    unfold main. simpl. by rewrite Hlog.
Qed.

Lemma invalid_date_still_counted_witness :
  parse_line 2026 line_feb30 None = Ok (Some ("9.9.9.9"%string, None))
  ∧ ∀ st, ∃ st',
      analyze_step 2026 st line_feb30 = Ok st'
      ∧ total_lines st' = total_lines st + 1
      ∧ matched_lines st' = matched_lines st + 1
      ∧ counter_get "9.9.9.9" (counts st') = counter_get "9.9.9.9" (counts st) + 1.
Proof.
  pose (m := default ∅ (search PATTERN (chars line_feb30))).
  assert (search PATTERN (chars line_feb30) = Some m) as Hs
    by (vm_compute; reflexivity).
  assert (day_of m = Ok 30) as Hd by (vm_compute; reflexivity).
  assert (time_of m = Ok [10; 0; 0]) as Ht by (vm_compute; reflexivity).
  assert (¬ valid_calendar 2026 (month_of m) 30 10 0 0) as Hv.
  { replace (month_of m) with 2 by (vm_compute; reflexivity).
    unfold valid_calendar. vm_compute. intros (_ & _ & [_ H] & _). by apply H. }
  destruct (invalid_date_still_counted 2026 line_feb30 m 30 10 0 0 Hs Hd Ht Hv)
    as (Hp & Hstep & _).
  replace (str (group m "ip")) with "9.9.9.9"%string in *
    by (vm_compute; reflexivity).
  split; [exact Hp|exact Hstep].
Defined.

(** C4.  On a log whose matched lines all carry a valid timestamp the
    analysis returns, and after every line read so far, for every
    address with both values present, first seen is not after last
    seen. *)
Theorem first_seen_le_last_seen now fs path top_n lines :
  fs !! path = Some (Regular lines) →
  Forall (valid_stamped now) lines →
  (∃ res, analyze_log now fs path top_n = Ok res ∧ seen_ordered res)
  ∧ ∀ n, ∃ st, analyze_loop now analysis_init (take n lines) = Ok st
               ∧ seen_ordered st.
Proof.
  intros Hfs Hv.
  assert (∀ n, ∃ st, analyze_loop now analysis_init (take n lines) = Ok st
                     ∧ seen_ordered st) as Hpre.
  { intros n.
    destruct (analyze_loop_valid now (take n lines) analysis_init) as [st Hst].
    - apply seen_present_init.
    - by apply Forall_take.
    - exists st. eauto using analyze_loop_ordered. }
  split; [|done].
  destruct (Hpre (length lines)) as (res & Hres & Hord).
  rewrite firstn_all in Hres. exists res.
  by rewrite (analyze_log_Regular _ _ _ _ lines).
Qed.

Lemma first_seen_le_last_seen_witness :
  ∃ res, analyze_log 2026 valid_fs "auth.log" 10 = Ok res ∧ seen_ordered res.
Proof.
  refine (proj1 (first_seen_le_last_seen 2026 valid_fs "auth.log" 10 valid_log _ _)).
  - vm_compute. reflexivity.
  - unfold valid_log.
    apply Forall_cons_2; [right; eexists _, _; vm_compute; reflexivity|].
    apply Forall_cons_2; [right; eexists _, _; vm_compute; reflexivity|].
    apply Forall_cons_2; [left; vm_compute; reflexivity|].
    apply Forall_cons_2; [right; eexists _, _; vm_compute; reflexivity|].
    apply Forall_nil_2.
Defined.


(** The [i]-th listed entry is shown by the [i]-th line after the four
    heading lines. *)
Lemma summary_row_at res top_n i e :
  top_entries res top_n !! i = Some e →
  pretty_print_summary res top_n !! (4 + i)%nat
  = Some (summary_row (first_seen res) (last_seen res) e).
Proof.
  intros Hi. unfold pretty_print_summary.
  rewrite lookup_app_r by (simpl; lia).
  replace (4 + i - length (summary_head res))%nat with i by (simpl; lia).
  rewrite lookup_app_l.
  - by rewrite list_lookup_fmap, Hi.
  - rewrite length_map. by eapply lookup_lt_Some.
Qed.




(** The insertion order of the counter is the order in which the
    addresses were first met in the log. *)
Lemma counts_in_first_encounter_order now fs path top_n lines res :
  fs !! path = Some (Regular lines) →
  analyze_log now fs path top_n = Ok res →
  (counts res).*1 = first_occurrences (omap (matched_ip now) lines).
Proof.
  intros Hfs Hres. rewrite (analyze_log_Regular _ _ _ _ lines Hfs) in Hres.
  apply analyze_loop_keys in Hres. simpl in Hres. rewrite Hres.
  apply filter_not_in_nil.
Qed.

(** C6.  When the path does not exist [main] prints the one message and
    returns: no summary, no CSV, whatever [--out] says.  It is the only
    exception [main] handles: any other one that [analyze_log] raises
    leaves [main] as it is, with nothing printed or written. *)
Theorem missing_file_is_reported now fs a :
  (fs !! arg_file a = None →
   analyze_log now fs (arg_file a) (arg_top a) = Raise FileNotFoundError
   ∧ main now fs a
     = Effects ["Fichier introuvable : " +:+ arg_file a] [] (Ok ()))
  ∧ (∀ e, analyze_log now fs (arg_file a) (arg_top a) = Raise e →
          e ≠ FileNotFoundError →
          main now fs a = Effects [] [] (Raise e)).
Proof.
  split.
  - intros Hfs.
    assert (analyze_log now fs (arg_file a) (arg_top a) = Raise FileNotFoundError)
      as Hlog by (unfold analyze_log, open_read; by rewrite Hfs).
    split; [done|]. unfold main. by rewrite Hlog.
  - intros e Hlog Hne. unfold main. rewrite Hlog. by destruct e.
Qed.

Lemma missing_file_is_reported_witness :
  main 2026 sample_fs (Args "nowhere.log" 10 (Some "out.csv"%string))
  = Effects ["Fichier introuvable : nowhere.log"%string] [] (Ok ())
  ∧ main 2026 absent_first_fs (Args "auth.log" 10 (Some "out.csv"%string))
    = Effects [] [] (Raise TypeError).
Proof.
  pose (a := Args "nowhere.log" 10 (Some "out.csv"%string)).
  pose (b := Args "auth.log" 10 (Some "out.csv"%string)).
  split.
  - refine (proj2 (proj1 (missing_file_is_reported 2026 sample_fs a) _)).
    vm_compute. reflexivity.
  - refine (proj2 (missing_file_is_reported 2026 absent_first_fs b) TypeError _ _).
    + vm_compute. reflexivity.
    + discriminate.
Defined.

(** C7.  When [analyze_log] returns, [total_lines] is the number of
    lines of the file, [matched_lines] the number of those on which
    [parse_line] returned a match, and the second is at most the first. *)
Theorem line_counters now fs path top_n lines res :
  fs !! path = Some (Regular lines) →
  analyze_log now fs path top_n = Ok res →
  total_lines res = Z.of_nat (length lines)
  ∧ matched_lines res = Z.of_nat (length (List.filter (is_matched now) lines))
  ∧ matched_lines res ≤ total_lines res.
Proof.
  intros Hfs Hres. rewrite (analyze_log_Regular _ _ _ _ lines Hfs) in Hres.
  apply analyze_loop_counters in Hres as [Ht Hm]. simpl in Ht, Hm.
  split_and!; [done..|]. rewrite Ht, Hm.
  pose proof (List.filter_length_le (is_matched now) lines). lia.
Qed.

Lemma line_counters_witness :
  ∃ res, analyze_log 2026 sample_fs "auth.log" 10 = Ok res
         ∧ total_lines res = 5 ∧ matched_lines res = 4.
Proof.
  pose (r := analyze_log 2026 sample_fs "auth.log" 10).
  assert (∃ res, r = Ok res) as [res Hres] by (vm_compute; by eexists).
  exists res. split; [exact Hres|].
  destruct (line_counters 2026 sample_fs "auth.log" 10 sample_log res)
    as (Ht & Hm & _); [vm_compute; reflexivity|exact Hres|].
  split; [exact Ht|]. rewrite Hm. vm_compute. reflexivity.
Defined.




(** C9.  A [top_n] of at least the number of distinct addresses makes
    the summary list every address, each once: one row per address
    between the four heading lines and the closing line, and for every
    address a row that shows it with its count and its first and last
    seen.  A [top_n] of 0 leaves the header, the totals and the closing
    line, with no address. *)
Theorem top_n_truncation res top_n :
  (Z.of_nat (length (counts res)) ≤ top_n →
   top_entries res top_n = sorted_desc (counts res)
   ∧ top_entries res top_n ≡ₚ counts res
   ∧ pretty_print_summary res top_n
     = summary_head res
       ++ map (summary_row (first_seen res) (last_seen res)) (sorted_desc (counts res))
       ++ summary_foot
   ∧ length (pretty_print_summary res top_n) = (5 + length (counts res))%nat
   ∧ ∀ e, e ∈ counts res →
       ∃ i, (i < length (counts res))%nat
            ∧ pretty_print_summary res top_n !! (4 + i)%nat
              = Some (" - " +:+ ljust 15 e.1
                      +:+ " | attempts: " +:+ rjust 4 (str_Z e.2)
                      +:+ " | first: " +:+ fmt_seen (seen_get (first_seen res) e.1)
                      +:+ " | last: " +:+ fmt_seen (seen_get (last_seen res) e.1)))
  ∧ (top_n = 0 →
     top_entries res top_n = []
     ∧ pretty_print_summary res top_n
       = ["=== Log analysis summary ===";
          "Total lines scanned: " +:+ str_Z (total_lines res);
          "Lines matched (SSH failures): " +:+ str_Z (matched_lines res);
          String "010" "Top IPs by failed attempts:";
          "============================"]%string).
Proof.
  split.
  - intros Hn.
    assert (top_entries res top_n = sorted_desc (counts res)) as Htop.
    { unfold top_entries, most_common.
      destruct (Z.leb_spec top_n 0) as [Hle|Hgt].
      - destruct (counts res); simpl in *; [done|lia].
      - apply take_ge. rewrite sorted_desc_length. lia. }
    split_and!; [done| | | |].
    + rewrite Htop. apply sorted_desc_Permutation.
    + unfold pretty_print_summary. by rewrite Htop.
    + unfold pretty_print_summary. rewrite Htop.
      rewrite !length_app, length_map, sorted_desc_length. simpl. lia.
    + intros e He. rewrite <-(sorted_desc_Permutation (counts res)) in He.
      apply list_elem_of_lookup in He as [i Hi]. exists i. split.
      * rewrite <-(sorted_desc_length (counts res)). by eapply lookup_lt_Some.
      * apply summary_row_at. by rewrite Htop.
  - intros ->. unfold pretty_print_summary, top_entries. done.
Qed.

Lemma top_n_truncation_witness :
  analyze_log 2026 sample_fs "auth.log" 10 = Ok sample_result
  ∧ pretty_print_summary sample_result 10
    = ["=== Log analysis summary ===";
       "Total lines scanned: 5";
       "Lines matched (SSH failures): 4";
       String "010" "Top IPs by failed attempts:";
       " - 1.2.3.4         | attempts:    2 | first: 2026-04-10 12:34:56 | last: 2026-04-10 12:34:56";
       " - 5.6.7.8         | attempts:    1 | first: 2026-04-10 12:35:01 | last: 2026-04-10 12:35:01";
       " - 9.9.9.9         | attempts:    1 | first: None | last: None";
       "============================"]%string
  ∧ pretty_print_summary sample_result 0
    = ["=== Log analysis summary ===";
       "Total lines scanned: 5";
       "Lines matched (SSH failures): 4";
       String "010" "Top IPs by failed attempts:";
       "============================"]%string.
Proof.
  destruct (top_n_truncation sample_result 10) as [Hall _].
  destruct (top_n_truncation sample_result 0) as [_ Hzero].
  split_and!.
  - vm_compute. reflexivity.
  - destruct Hall as (_ & _ & -> & _); [vm_compute; discriminate|].
    vm_compute. reflexivity.
  - destruct Hzero as [_ ->]; [reflexivity|]. vm_compute. reflexivity.
Defined.

(** C10.  When [analyze_log] returns, [counts], [first_seen] and
    [last_seen] have the same keys, each key once; every count is at
    least 1; and an address has a first-seen and a last-seen entry
    exactly when its count is at least 1. *)
Theorem same_keys_positive_counts now fs path top_n res :
  analyze_log now fs path top_n = Ok res →
  dom (first_seen res) = list_to_set (counts res).*1
  ∧ dom (last_seen res) = list_to_set (counts res).*1
  ∧ NoDup (counts res).*1
  ∧ Forall (fun e => 1 ≤ e.2) (counts res)
  ∧ ∀ ip, is_Some (first_seen res !! ip) ∧ is_Some (last_seen res !! ip)
          ↔ 1 ≤ counter_get ip (counts res).
Proof.
  intros Hres.
  destruct (analyze_log_Ok _ _ _ _ _ Hres) as (lines & _ & Hloop).
  destruct (analyze_loop_consistent _ _ _ Hloop) as [Hf Hl Hnd Hpos _].
  split_and!; [done..|]. intros ip.
  rewrite counter_get_positive by done.
  rewrite <-!elem_of_dom, Hf, Hl, elem_of_list_to_set. tauto.
Qed.

Lemma same_keys_positive_counts_witness :
  ∃ res, analyze_log 2026 sample_fs "auth.log" 10 = Ok res
  ∧ dom (first_seen res) = dom (last_seen res)
  ∧ Forall (fun e => 1 ≤ e.2) (counts res).
Proof.
  pose (r := analyze_log 2026 sample_fs "auth.log" 10).
  assert (∃ res, r = Ok res) as (res & Hres) by (vm_compute; by eexists).
  exists res. split; [exact Hres|].
  destruct (same_keys_positive_counts 2026 sample_fs "auth.log" 10 res Hres)
    as (Hf & Hl & _ & Hpos & _).
  split; [by rewrite Hf, Hl|exact Hpos].
Defined.


(** * Further properties of the code *)

(** ** [parse_line] *)

Lemma matches_octet s : matches (Rep 1 3 (Cls is_digit)) s → octet s.
Proof. intros [??]%matches_rep_cls. by split. Qed.

Lemma matches_IP_RE s : matches IP_RE s → dotted_quad s.
Proof.
  unfold IP_RE. intros H.
  repeat match goal with
    | H : matches (Seq _ _) _ |- _ => inversion H; clear H; subst
    | H : matches (Lit _) _ |- _ => inversion H; clear H; subst
    | H : matches (Rep _ _ (Seq _ _)) _ |- _ => inversion H; clear H; subst
    | H : matches (Rep 1 3 (Cls _)) _ |- _ => apply matches_octet in H
    end; simpl in *.
  rewrite app_nil_r. by eexists _, _, _, _.
Qed.

Lemma app_peel (a b f t : text) : b = f ++ t → a ++ b = (a ++ f) ++ t.
Proof. intros ->. by rewrite <-(assoc_L (++)). Qed.

(** The end of a match: [from], white space, the address. *)
Lemma captures_PATTERN_tail s m :
  captures PATTERN s ∅ m →
  ∃ front ws,
    s = front ++ chars "from" ++ ws ++ group m "ip"
    ∧ ws ≠ [] ∧ forallb is_space ws = true
    ∧ dotted_quad (group m "ip").
Proof.
  unfold PATTERN, Some1. intros H.
  repeat match goal with
    | H : captures (Seq _ _) _ _ _ |- _ => inversion H; clear H; subst
    | H : captures (Group _ _) _ _ _ |- _ => inversion H; clear H; subst
    | H : captures (Cls _) _ _ _ |- _ => inversion H; clear H; subst
    | H : captures (Lit _) _ _ _ |- _ => inversion H; clear H; subst
    | H : captures (Many _) _ _ _ |- _ => inversion H; clear H; subst
    end.
  rewrite group_insert_eq.
  match goal with
  | H : captures IP_RE ?ip _ _ |- _ =>
      apply captures_matches, matches_IP_RE in H; rename H into Hip
  end.
  match goal with
  | |- ∃ _ _, _ ++ _ ++ _ ++ _ ++ _ ++ _ ++ _ ++ _ ++ _ ++ _ ++ _ ++ ?w ++ _ = _ ∧ _ =>
      eexists _, w
  end.
  split_and!; [|done| |done].
  - do 10 (apply app_peel). exact (eq_sym (app_nil_l _)).
  - simpl. by apply andb_true_intro.
Qed.

Lemma length_str (l : text) : String.length (str l) = length l.
Proof. induction l as [|c l IH]; simpl; [done|]. by rewrite IH. Qed.

Lemma length_string_app (s1 s2 : string) :
  String.length (s1 +:+ s2) = (String.length s1 + String.length s2)%nat.
Proof. induction s1 as [|c s1 IH]; simpl; [done|]. by rewrite IH. Qed.

Lemma length_spaces n : String.length (spaces n) = n.
Proof. unfold spaces. by rewrite length_str, length_replicate. Qed.

Lemma dotted_quad_length s : dotted_quad s → (7 ≤ length s ≤ 15)%nat.
Proof.
  intros (a & b & c & d & -> & [_ ?] & [_ ?] & [_ ?] & [_ ?]).
  repeat (rewrite length_app; simpl). lia.
Qed.

(** X1.  [parse_line] raises nothing, on any text: the day it hands to
    [int] outside the [try] is always one or two digits. *)
Theorem parse_line_never_raises now line year e :
  parse_line now line year ≠ Raise e.
Proof. destruct (parse_line_returns now line year) as [res ->]. done. Qed.

(** X2.  The address of a matched line is four runs of one to three
    digits with dots between them (no run is checked against 255); it
    stands in the line behind [from] and white space; and it fills the
    15 columns the summary pads it to. *)
Theorem matched_address_is_dotted_quad now line year ip dt :
  parse_line now line year = Ok (Some (ip, dt)) →
  dotted_quad (chars ip)
  ∧ (∃ front ws rest,
       chars line = front ++ chars "from" ++ ws ++ chars ip ++ rest
       ∧ ws ≠ [] ∧ forallb is_space ws = true)
  ∧ String.length (ljust 15 ip) = 15%nat.
Proof.
  unfold parse_line. destruct (search PATTERN (chars line)) as [m|] eqn:Hs; [|done].
  destruct (day_of m) as [day|]; simpl; [|done]. intros [= <- _].
  apply search_sound in Hs as (pre & mid & post & Hline & Hc).
  apply captures_PATTERN_tail in Hc as (front & ws & -> & Hws & Hsp & Hq).
  unfold str. rewrite list_ascii_of_string_of_list_ascii.
  split_and!; [done| |].
  - exists (pre ++ front), ws, post. split; [|done].
    rewrite Hline. by rewrite <-!(assoc_L (++)).
  - unfold ljust. rewrite length_string_app, length_spaces.
    pose proof (length_str (group m "ip")) as Hlen. unfold str in Hlen.
    rewrite Hlen. apply dotted_quad_length in Hq. lia.
Qed.

Lemma matched_address_is_dotted_quad_witness :
  dotted_quad (chars "1.2.3.4") ∧ String.length (ljust 15 "1.2.3.4") = 15%nat.
Proof.
  assert (∃ dt, parse_line 2026 line_admin None = Ok (Some ("1.2.3.4"%string, dt)))
    as [dt Hp] by (vm_compute; by eexists).
  destruct (matched_address_is_dotted_quad 2026 line_admin None _ _ Hp)
    as (Hq & _ & Hlen).
  split; [exact Hq|exact Hlen].
Defined.

(** X3.  A timestamp that [parse_line] returns is a valid calendar date
    and time: its year is the one passed, or the current one when none
    is passed, and it has no microseconds. *)
Theorem returned_timestamp_is_valid now line year ip d :
  parse_line now line year = Ok (Some (ip, Some d)) →
  valid_calendar (dt_year d) (dt_month d) (dt_day d)
    (dt_hour d) (dt_minute d) (dt_second d)
  ∧ dt_year d = default now year
  ∧ dt_microsecond d = 0.
Proof.
  unfold parse_line. destruct (search PATTERN (chars line)) as [m|] eqn:Hs; [|done].
  destruct (search_PATTERN_fields _ _ Hs) as (day & h & mi & sec & -> & ->).
  simpl. destruct (datetime_ok _) eqn:Hok; [|done].
  intros [= _ <-]. simpl. split; [by apply datetime_ok_valid|].
  by destruct year.
Qed.

Lemma returned_timestamp_is_valid_witness :
  ∃ d, parse_line 2026 line_admin None = Ok (Some ("1.2.3.4"%string, Some d))
       ∧ dt_year d = 2026 ∧ dt_microsecond d = 0.
Proof.
  assert (∃ d, parse_line 2026 line_admin None = Ok (Some ("1.2.3.4"%string, Some d)))
    as [d Hp] by (vm_compute; by eexists).
  exists d. split; [exact Hp|].
  exact (proj2 (returned_timestamp_is_valid 2026 line_admin None _ d Hp)).
Defined.

(** X4.  The month group takes any three word characters.  When they
    are not one of the twelve names of [MONTHS], in that very spelling,
    the month number is 0, no date can be built, and the line is
    returned as a match without a timestamp. *)
Theorem unknown_month_gives_no_timestamp now line year m :
  search PATTERN (chars line) = Some m →
  MONTHS !! str (group m "month") = None →
  parse_line now line year = Ok (Some (str (group m "ip"), None)).
Proof.
  intros Hs Hmonth.
  destruct (search_PATTERN_fields _ _ Hs) as (day & h & mi & sec & Hd & Ht).
  apply (parse_line_invalid_date now line year m day h mi sec Hs Hd Ht).
  unfold month_of. rewrite Hmonth. simpl. unfold valid_calendar. lia.
Qed.

Lemma unknown_month_gives_no_timestamp_witness :
  parse_line 2026 line_lowercase_month None = Ok (Some ("1.2.3.4"%string, None)).
Proof.
  pose (m := default ∅ (search PATTERN (chars line_lowercase_month))).
  assert (search PATTERN (chars line_lowercase_month) = Some m) as Hs
    by (vm_compute; reflexivity).
  assert (MONTHS !! str (group m "month") = None) as Hm
    by (vm_compute; reflexivity).
  pose proof (unknown_month_gives_no_timestamp 2026 line_lowercase_month None m Hs Hm)
    as Hp.
  replace (str (group m "ip")) with "1.2.3.4"%string in Hp
    by (vm_compute; reflexivity).
  exact Hp.
Defined.

(** ** The loop of [analyze_log] *)

Lemma matched_ip_parse now line ip dt :
  parse_line now line None = Ok (Some (ip, dt)) → matched_ip now line = Some ip.
Proof. unfold matched_ip. by intros ->. Qed.

Lemma matched_ip_unmatched now line :
  parse_line now line None = Ok None → matched_ip now line = None.
Proof. unfold matched_ip. by intros ->. Qed.

Lemma analyze_loop_count now lines : ∀ st st' ip,
  analyze_loop now st lines = Ok st' →
  counter_get ip (counts st')
  = counter_get ip (counts st)
    + Z.of_nat (length (filter (fun line => matched_ip now line = Some ip) lines)).
Proof.
  induction lines as [|line lines IH]; intros st st' ip; simpl.
  - intros [= <-]. rewrite ?filter_nil. simpl. lia.
  - destruct (analyze_step now st line) as [st1|] eqn:H1; simpl; [|done].
    intros Hrest. rewrite (IH _ _ ip Hrest).
    apply analyze_step_Ok in H1
      as [[Hp ->]|(ip0 & dt & fs & ls & Hp & _ & _ & ->)]; simpl.
    + rewrite filter_cons_False; [lia|].
      by rewrite (matched_ip_unmatched _ _ Hp).
    + rewrite (filter_cons _ line), (matched_ip_parse _ _ _ _ Hp).
      destruct (decide (ip0 = ip)) as [->|Hne].
      * rewrite decide_True by done. rewrite counter_get_incr_eq.
        simpl length. lia.
      * rewrite decide_False by congruence. by rewrite counter_get_incr_ne.
Qed.

(** X5.  When [analyze_log] returns, the count of every address is the
    number of lines of the file that [parse_line] matched with that
    address; an address matched by no line counts 0. *)
Theorem count_is_number_of_matched_lines now fs path top_n lines res ip :
  fs !! path = Some (Regular lines) →
  analyze_log now fs path top_n = Ok res →
  counter_get ip (counts res)
  = Z.of_nat (length (filter (fun line => matched_ip now line = Some ip) lines)).
Proof.
  intros Hfs Hres. rewrite (analyze_log_Regular _ _ _ _ lines Hfs) in Hres.
  by rewrite (analyze_loop_count _ _ _ _ ip Hres).
Qed.

Lemma count_is_number_of_matched_lines_witness :
  ∃ res, analyze_log 2026 sample_fs "auth.log" 10 = Ok res
         ∧ counter_get "1.2.3.4" (counts res) = 2
         ∧ counter_get "8.8.8.8" (counts res) = 0.
Proof.
  pose (r := analyze_log 2026 sample_fs "auth.log" 10).
  assert (∃ res, r = Ok res) as [res Hres] by (vm_compute; by eexists).
  exists res. split; [exact Hres|].
  assert (sample_fs !! "auth.log"%string = Some (Regular sample_log)) as Hfs
    by (vm_compute; reflexivity).
  split.
  - rewrite (count_is_number_of_matched_lines 2026 sample_fs "auth.log" 10
               sample_log res "1.2.3.4" Hfs Hres).
    vm_compute. reflexivity.
  - rewrite (count_is_number_of_matched_lines 2026 sample_fs "auth.log" 10
               sample_log res "8.8.8.8" Hfs Hres).
    vm_compute. reflexivity.
Defined.

(** X6.  Lines touch the entries of their own address only: over any
    stretch of the log in which no line is matched with [ip], the count,
    the first seen and the last seen of [ip] stay as they were (an
    unmatched line changes [total_lines] alone). *)
Theorem other_addresses_untouched now lines : ∀ st st' ip,
  analyze_loop now st lines = Ok st' →
  Forall (fun line => matched_ip now line ≠ Some ip) lines →
  counter_get ip (counts st') = counter_get ip (counts st)
  ∧ first_seen st' !! ip = first_seen st !! ip
  ∧ last_seen st' !! ip = last_seen st !! ip.
Proof.
  induction lines as [|line lines IH]; intros st st' ip; simpl.
  - by intros [= <-].
  - destruct (analyze_step now st line) as [st1|] eqn:H1; simpl; [|done].
    intros Hrest [Hline Hlines]%Forall_cons.
    destruct (IH _ _ ip Hrest Hlines) as (-> & -> & ->).
    apply analyze_step_Ok in H1
      as [[Hp ->]|(ip0 & dt & fs & ls & Hp & Hfs & Hls & ->)]; simpl; [done|].
    rewrite (matched_ip_parse _ _ _ _ Hp) in Hline.
    assert (ip0 ≠ ip) as Hne by congruence.
    rewrite counter_get_incr_ne by done.
    by rewrite (update_seen_other _ _ _ _ _ _ Hfs Hne),
      (update_seen_other _ _ _ _ _ _ Hls Hne).
Qed.

Lemma other_addresses_untouched_witness :
  ∃ st, analyze_loop 2026 analysis_init [line_root; line_cron] = Ok st
        ∧ counter_get "1.2.3.4" (counts st) = 0
        ∧ first_seen st !! "1.2.3.4"%string = None.
Proof.
  pose (r := analyze_loop 2026 analysis_init [line_root; line_cron]).
  assert (∃ st, r = Ok st) as [st Hst] by (vm_compute; by eexists).
  exists st. split; [exact Hst|].
  destruct (other_addresses_untouched 2026 [line_root; line_cron]
              analysis_init st "1.2.3.4" Hst) as (Hc & Hf & _).
  - apply Forall_cons_2; [by vm_compute|].
    apply Forall_cons_2; [by vm_compute|]. apply Forall_nil_2.
  - split; [exact Hc|exact Hf].
Defined.




(** ** The summary *)

#[local] Instance count_ge_trans : Transitive count_ge.
Proof. unfold count_ge. intros x y z ??. lia. Qed.

(** X8.  The summary is the four heading lines, the closing line, and
    one row per listed address: as many rows as [top_n] asks for, capped
    by the number of addresses, and none for a [top_n] of 0 or below. *)
Theorem summary_line_count res top_n :
  length (pretty_print_summary res top_n)
  = (5 + Nat.min (Z.to_nat top_n) (length (counts res)))%nat.
Proof.
  unfold pretty_print_summary, top_entries, most_common.
  rewrite !length_app, length_map. simpl.
  destruct (Z.leb_spec top_n 0) as [Hle|Hgt]; simpl.
  - replace (Z.to_nat top_n) with 0%nat by lia. simpl. lia.
  - rewrite length_take, sorted_desc_length. lia.
Qed.

(** X9.  Whenever the summary lists anything, its first entry has the
    largest count of all addresses, and among the addresses with that
    count it is the one met first in the log. *)
Theorem top_entry_is_most_active res top_n e rest :
  top_entries res top_n = e :: rest →
  (∀ e', e' ∈ counts res → e'.2 ≤ e.2)
  ∧ head (filter (fun x => x.2 = e.2) (counts res)) = Some e.
Proof.
  unfold top_entries, most_common.
  destruct (top_n <=? 0); [done|].
  pose proof (sorted_desc_Sorted (counts res)) as Hs.
  pose proof (sorted_desc_Permutation (counts res)) as Hp.
  pose proof (sorted_desc_stable e.2 (counts res)) as Hst.
  destruct (sorted_desc (counts res)) as [|e0 ranked]; [by rewrite take_nil|].
  destruct (Z.to_nat top_n) as [|n]; [done|]. simpl. intros [= -> _].
  split.
  - apply Sorted_StronglySorted in Hs; [|apply count_ge_trans].
    apply StronglySorted_inv in Hs as [_ Hall].
    intros e' Hin. rewrite <-Hp in Hin.
    apply elem_of_cons in Hin as [->|Hin]; [done|].
    rewrite Forall_forall in Hall. by apply Hall.
  - rewrite <-Hst. by rewrite filter_cons_True.
Qed.

Lemma top_entry_is_most_active_witness :
  ∃ res, analyze_log 2026 sample_fs "auth.log" 1 = Ok res
         ∧ ∀ e', e' ∈ counts res → e'.2 ≤ 2.
Proof.
  pose (r := analyze_log 2026 sample_fs "auth.log" 1).
  assert (∃ res, r = Ok res ∧ top_entries res 1 = [("1.2.3.4"%string, 2)])
    as (res & Hres & Htop) by (vm_compute; by eexists).
  exists res. split; [exact Hres|].
  exact (proj1 (top_entry_is_most_active res 1 ("1.2.3.4"%string, 2) [] Htop)).
Defined.


(** ** First seen and last seen *)

Lemma dt_compare_lcompare a b : dt_compare a b = lcompare (dt_fields a) (dt_fields b).
Proof.
  unfold dt_compare, dt_fields. simpl.
  by destruct (dt_microsecond a ?= dt_microsecond b).
Qed.

Lemma lcompare_le_trans l1 : ∀ l2 l3,
  length l1 = length l2 → length l2 = length l3 →
  lcompare l1 l2 ≠ Gt → lcompare l2 l3 ≠ Gt → lcompare l1 l3 ≠ Gt.
Proof.
  induction l1 as [|x l1 IH]; intros [|y l2] [|z l3]; simpl; try done.
  intros [= Hl12] [= Hl23].
  destruct (Z.compare_spec x y), (Z.compare_spec y z), (Z.compare_spec x z);
    simpl; try done; try lia.
  by apply IH.
Qed.

Lemma dt_le_trans a b c : dt_le a b → dt_le b c → dt_le a c.
Proof.
  unfold dt_le. rewrite !dt_compare_lcompare. by apply lcompare_le_trans.
Qed.

Lemma dt_ltb_true_le a b : dt_ltb a b = true → dt_le a b.
Proof. unfold dt_ltb, dt_le. by destruct (dt_compare a b). Qed.

Lemma dt_gtb_true_le a b : dt_gtb a b = true → dt_le b a.
Proof.
  unfold dt_gtb, dt_le. rewrite (dt_compare_antisym a b).
  by destruct (dt_compare a b).
Qed.

Lemma ip_stamps_snoc now ip pre line :
  ip_stamps now ip (pre ++ [line])
  = ip_stamps now ip pre
    ++ match parse_line now line None with
       | Ok (Some (ip', dt)) => if decide (ip' = ip) then [dt] else []
       | _ => []
       end.
Proof.
  unfold ip_stamps. rewrite omap_app. f_equal. simpl.
  destruct (parse_line now line None) as [[[ip' dt]|]|]; try done.
  by destruct (decide (ip' = ip)).
Qed.

Lemma head_app_nonempty {A} (l k : list A) x : head l = Some x → head (l ++ k) = Some x.
Proof. by destruct l. Qed.

Section tracking.
Variables (beats : datetime → datetime → bool) (R : datetime → datetime → Prop).
Hypothesis R_refl : ∀ a, R a a.
Hypothesis R_trans : ∀ a b c, R a b → R b c → R a c.
Hypothesis beats_true : ∀ d c, beats d c = true → R d c.
Hypothesis beats_false : ∀ d c, beats d c = false → R c d.
Variable now : Z.
Implicit Types (seen : gmap string (option datetime)) (pre : list string).

Lemma seen_tracks_empty : seen_tracks R now ∅ [].
Proof. intros ip. by rewrite lookup_empty. Qed.

Lemma seen_tracks_unmatched seen pre line :
  seen_tracks R now seen pre → parse_line now line None = Ok None →
  seen_tracks R now seen (pre ++ [line]).
Proof.
  intros Ht Hp ip. specialize (Ht ip). unfold stamps in *.
  rewrite ip_stamps_snoc, Hp, app_nil_r. done.
Qed.

Lemma seen_tracks_matched seen pre line ip dt seen' :
  seen_tracks R now seen pre →
  parse_line now line None = Ok (Some (ip, dt)) →
  update_seen beats ip dt seen = Ok seen' →
  seen_tracks R now seen' (pre ++ [line]).
Proof.
  intros Ht Hp Hu ip'. unfold stamps. rewrite ip_stamps_snoc, Hp.
  destruct (decide (ip = ip')) as [<-|Hne].
  - specialize (Ht ip). unfold stamps in Ht. unfold update_seen in Hu.
    rewrite omap_app.
    destruct (seen !! ip) as [[c|]|] eqn:Hip.
    + destruct Ht as ([d0 Hhead] & Hin & Hbest).
      destruct dt as [d|]; simplify_eq; simpl.
      * destruct (beats d c) eqn:Hb.
        -- rewrite lookup_insert_eq. split_and!.
           ++ exists d0. by apply head_app_nonempty.
           ++ apply elem_of_app. right. apply list_elem_of_here.
           ++ intros x [Hx|Hx%list_elem_of_singleton]%elem_of_app;
                [|by subst].
              eapply R_trans; [by apply beats_true|by apply Hbest].
        -- rewrite Hip. split_and!.
           ++ exists d0. by apply head_app_nonempty.
           ++ apply elem_of_app. by left.
           ++ intros x [Hx|Hx%list_elem_of_singleton]%elem_of_app;
                [by apply Hbest|subst; by apply beats_false].
      * rewrite Hip, app_nil_r. split_and!; [|done..].
        exists d0. by apply head_app_nonempty.
    + destruct Ht as [Hhead Hnil]. destruct dt as [d|]; simplify_eq; simpl.
      rewrite Hip, app_nil_r. split; [by apply head_app_nonempty|done].
    + simplify_eq. rewrite lookup_insert_eq, Ht. simpl.
      destruct dt as [d|]; simpl; [|done]. split_and!.
      * by exists d.
      * apply list_elem_of_here.
      * intros x Hx%list_elem_of_singleton. by subst.
  - rewrite (update_seen_other _ _ _ _ _ _ Hu Hne).
    rewrite app_nil_r. apply Ht.
Qed.
End tracking.

Lemma tracked_init now : tracked now analysis_init [].
Proof. split; apply seen_tracks_empty. Qed.

Lemma tracked_step now st pre line st' :
  tracked now st pre → analyze_step now st line = Ok st' →
  tracked now st' (pre ++ [line]).
Proof.
  intros [Hf Hl] [[Hp ->]|(ip & dt & fs & ls & Hp & Hfs & Hls & ->)]%analyze_step_Ok;
    simpl.
  - split; by apply seen_tracks_unmatched.
  - split; simpl.
    + eapply (seen_tracks_matched dt_ltb dt_le); eauto using dt_le_refl,
        dt_le_trans, dt_ltb_true_le, dt_ltb_false_le.
    + eapply (seen_tracks_matched dt_gtb (flip dt_le)); unfold flip;
        eauto using dt_le_refl, dt_le_trans, dt_gtb_true_le, dt_gtb_false_le.
Qed.

Lemma tracked_loop now lines : ∀ st pre st',
  tracked now st pre → analyze_loop now st lines = Ok st' →
  tracked now st' (pre ++ lines).
Proof.
  induction lines as [|line lines IH]; intros st pre st' Ht; simpl.
  - intros [= <-]. by rewrite app_nil_r.
  - destruct (analyze_step now st line) as [st1|] eqn:H1; simpl; [|done].
    intros Hrest. rewrite (cons_middle line), (assoc_L (++)).
    eapply IH; [|done]. by eapply tracked_step.
Qed.

Lemma analyze_log_tracked now fs path top_n lines res :
  fs !! path = Some (Regular lines) →
  analyze_log now fs path top_n = Ok res → tracked now res lines.
Proof.
  intros Hfs Hres. rewrite (analyze_log_Regular _ _ _ _ lines Hfs) in Hres.
  apply (tracked_loop now lines analysis_init [] res (tracked_init now) Hres).
Qed.

(** X10.  When [analyze_log] returns, a first seen that is present is
    the earliest of the valid timestamps of the lines matched with the
    address, and a last seen that is present is the latest of them. *)
Theorem seen_are_earliest_and_latest now fs path top_n lines res ip :
  fs !! path = Some (Regular lines) →
  analyze_log now fs path top_n = Ok res →
  (∀ a, first_seen res !! ip = Some (Some a) →
        a ∈ stamps now ip lines ∧ ∀ d, d ∈ stamps now ip lines → dt_le a d)
  ∧ (∀ b, last_seen res !! ip = Some (Some b) →
          b ∈ stamps now ip lines ∧ ∀ d, d ∈ stamps now ip lines → dt_le d b).
Proof.
  intros Hfs Hres.
  destruct (analyze_log_tracked _ _ _ _ _ _ Hfs Hres) as [Hf Hl].
  specialize (Hf ip). specialize (Hl ip). split.
  - intros a Ha. rewrite Ha in Hf. by destruct Hf as (_ & ? & ?).
  - intros b Hb. rewrite Hb in Hl. by destruct Hl as (_ & ? & ?).
Qed.

Lemma seen_are_earliest_and_latest_witness :
  ∃ res a b,
    analyze_log 2026 valid_fs "auth.log" 10 = Ok res
    ∧ first_seen res !! "1.2.3.4"%string = Some (Some a)
    ∧ last_seen res !! "1.2.3.4"%string = Some (Some b)
    ∧ a ∈ stamps 2026 "1.2.3.4" valid_log
    ∧ b ∈ stamps 2026 "1.2.3.4" valid_log.
Proof.
  pose (r := analyze_log 2026 valid_fs "auth.log" 10).
  assert (∃ res a b, r = Ok res
            ∧ first_seen res !! "1.2.3.4"%string = Some (Some a)
            ∧ last_seen res !! "1.2.3.4"%string = Some (Some b))
    as (res & a & b & Hres & Ha & Hb) by (vm_compute; by eexists _, _, _).
  exists res, a, b.
  assert (valid_fs !! "auth.log"%string = Some (Regular valid_log)) as Hfs
    by (vm_compute; reflexivity).
  destruct (seen_are_earliest_and_latest 2026 valid_fs "auth.log" 10 valid_log
              res "1.2.3.4" Hfs Hres) as [Hfirst Hlast].
  split_and!; [exact Hres|exact Ha|exact Hb| |].
  - exact (proj1 (Hfirst a Ha)).
  - exact (proj1 (Hlast b Hb)).
Defined.

(** X11.  When [analyze_log] returns, the first seen of an address is a
    stored [None] exactly when the first line matched with the address
    had no valid timestamp, and so is its last seen; then none of the
    lines of that address had one. *)
Theorem absent_first_seen_iff_absent_last_seen now fs path top_n lines res ip :
  fs !! path = Some (Regular lines) →
  analyze_log now fs path top_n = Ok res →
  (first_seen res !! ip = Some None ↔ head (ip_stamps now ip lines) = Some None)
  ∧ (last_seen res !! ip = Some None ↔ head (ip_stamps now ip lines) = Some None)
  ∧ (first_seen res !! ip = Some None → stamps now ip lines = []).
Proof.
  intros Hfs Hres.
  destruct (analyze_log_tracked _ _ _ _ _ _ Hfs Hres) as [Hf Hl].
  specialize (Hf ip). specialize (Hl ip).
  assert (∀ R (seen : gmap string (option datetime)),
    match seen !! ip with
    | None => ip_stamps now ip lines = []
    | Some None =>
        head (ip_stamps now ip lines) = Some None ∧ stamps now ip lines = []
    | Some (Some a) =>
        (∃ d0, head (ip_stamps now ip lines) = Some (Some d0))
        ∧ a ∈ stamps now ip lines
        ∧ ∀ d, d ∈ stamps now ip lines → R a d
    end →
    (seen !! ip = Some None ↔ head (ip_stamps now ip lines) = Some None)
    ∧ (seen !! ip = Some None → stamps now ip lines = [])) as Hcase.
  { intros R seen Hseen. destruct (seen !! ip) as [[a|]|].
    - destruct Hseen as ([d0 Hh] & _). rewrite Hh. by split; [split|].
    - destruct Hseen as [Hh Hn]. by split; [split|].
    - rewrite Hseen. by split; [split|]. }
  destruct (Hcase _ _ Hf) as [Hf1 Hf2], (Hcase _ _ Hl) as [Hl1 _].
  by split_and!.
Qed.

Lemma absent_first_seen_iff_absent_last_seen_witness :
  ∃ res, analyze_log 2026 sample_fs "auth.log" 10 = Ok res
         ∧ first_seen res !! "9.9.9.9"%string = Some None
         ∧ last_seen res !! "9.9.9.9"%string = Some None.
Proof.
  pose (r := analyze_log 2026 sample_fs "auth.log" 10).
  assert (∃ res, r = Ok res) as [res Hres] by (vm_compute; by eexists).
  exists res. split; [exact Hres|].
  assert (sample_fs !! "auth.log"%string = Some (Regular sample_log)) as Hfs
    by (vm_compute; reflexivity).
  destruct (absent_first_seen_iff_absent_last_seen 2026 sample_fs "auth.log" 10
              sample_log res "9.9.9.9" Hfs Hres) as (Hf & Hl & _).
  assert (head (ip_stamps 2026 "9.9.9.9" sample_log) = Some None) as Hh
    by (vm_compute; reflexivity).
  split; [exact (proj2 Hf Hh)|exact (proj2 Hl Hh)].
Defined.

(** What makes [update_seen] raise. *)
Lemma update_seen_Raise beats ip dt (seen : gmap string (option datetime)) e :
  update_seen beats ip dt seen = Raise e →
  e = TypeError ∧ (∃ d, dt = Some d) ∧ seen !! ip = Some None.
Proof.
  unfold update_seen. destruct (seen !! ip) as [[c|]|], dt as [d|]; try done.
  intros [= <-]. eauto.
Qed.

Lemma tracked_absent now st pre ip :
  tracked now st pre →
  (first_seen st !! ip = Some None ∨ last_seen st !! ip = Some None
   ↔ head (ip_stamps now ip pre) = Some None).
Proof.
  intros [Hf Hl]. specialize (Hf ip). specialize (Hl ip).
  destruct (first_seen st !! ip) as [[a|]|], (last_seen st !! ip) as [[b|]|];
    repeat match goal with
      | H : _ ∧ _ |- _ => destruct H
      | H : ∃ _, _ |- _ => destruct H
      end;
    split; try (intros [?|?]); try done; try congruence; auto;
    intros Hh; try (rewrite Hf in Hh); try (rewrite Hl in Hh); try done;
    congruence.
Qed.

Lemma analyze_step_Raise now st pre line e :
  tracked now st pre → analyze_step now st line = Raise e →
  e = TypeError
  ∧ ∃ ip d, parse_line now line None = Ok (Some (ip, Some d))
            ∧ head (ip_stamps now ip pre) = Some None.
Proof.
  intros Ht. unfold analyze_step.
  destruct (parse_line_returns now line None) as [[[ip dt]|] Hp]; rewrite Hp;
    simpl; [|done].
  destruct (update_seen dt_ltb ip dt (first_seen st)) as [fs|e1] eqn:Hfs; simpl.
  - destruct (update_seen dt_gtb ip dt (last_seen st)) as [ls|e2] eqn:Hls; simpl;
      [done|]. intros [= <-].
    apply update_seen_Raise in Hls as (-> & [d ->] & Hnone).
    split; [done|]. exists ip, d. split; [done|].
    apply (tracked_absent now st pre ip Ht). by right.
  - intros [= <-].
    apply update_seen_Raise in Hfs as (-> & [d ->] & Hnone).
    split; [done|]. exists ip, d. split; [done|].
    apply (tracked_absent now st pre ip Ht). by left.
Qed.

Lemma analyze_loop_Raise now lines : ∀ st pre e,
  tracked now st pre → analyze_loop now st lines = Raise e →
  e = TypeError
  ∧ ∃ l1 line l2 ip d,
      lines = l1 ++ line :: l2
      ∧ parse_line now line None = Ok (Some (ip, Some d))
      ∧ head (ip_stamps now ip (pre ++ l1)) = Some None.
Proof.
  induction lines as [|line lines IH]; intros st pre e Ht; simpl; [done|].
  destruct (analyze_step now st line) as [st1|e1] eqn:H1; simpl.
  - intros Hrest.
    destruct (IH st1 (pre ++ [line]) e) as (-> & l1 & l & l2 & ip & d & -> & Hp & Hh);
      [by eapply tracked_step|done|].
    split; [done|]. exists (line :: l1), l, l2, ip, d. split_and!; [done..|].
    by rewrite <-(assoc_L (++)) in Hh.
  - intros [= <-].
    destruct (analyze_step_Raise now st pre line e1 Ht H1) as (-> & ip & d & Hp & Hh).
    split; [done|]. exists [], line, lines, ip, d. by rewrite app_nil_r.
Qed.

(** X12.  On a readable file [analyze_log] raises exactly in this case,
    and then it is a [TypeError]: some line carries a valid timestamp
    for an address whose first matched line, earlier in the file, had
    none. *)
Theorem analysis_raises_iff now fs path top_n lines e :
  fs !! path = Some (Regular lines) →
  (analyze_log now fs path top_n = Raise e
   ↔ e = TypeError
     ∧ ∃ pre line post ip d,
         lines = pre ++ line :: post
         ∧ parse_line now line None = Ok (Some (ip, Some d))
         ∧ head (ip_stamps now ip pre) = Some None).
Proof.
  intros Hfs. rewrite (analyze_log_Regular _ _ _ _ lines Hfs). split.
  - intros Hr.
    by apply (analyze_loop_Raise now lines analysis_init [] e (tracked_init now)).
  - intros (-> & pre & line & post & ip & d & -> & Hp & Hh).
    rewrite analyze_loop_app.
    destruct (analyze_loop now analysis_init pre) as [st|e1] eqn:Hpre; simpl.
    + pose proof (tracked_loop now pre analysis_init [] st (tracked_init now) Hpre)
        as Ht. simpl in Ht.
      rewrite (analyze_step_absent_raises now st line ip d Hp); [done|].
      by apply (tracked_absent now st pre ip Ht).
    + apply (analyze_loop_Raise now pre analysis_init [] e1 (tracked_init now))
        in Hpre as [-> _]. done.
Qed.

Lemma analysis_raises_iff_witness :
  analyze_log 2026 absent_first_fs "auth.log" 10 = Raise TypeError.
Proof.
  refine (proj2 (analysis_raises_iff 2026 absent_first_fs "auth.log" 10
                   absent_first_log TypeError _) _).
  - vm_compute. reflexivity.
  - split; [reflexivity|].
    exists [line_feb30], line_mar1, [], "9.9.9.9"%string.
    eexists. split_and!; [reflexivity|vm_compute; reflexivity|vm_compute; reflexivity].
Defined.

(** ** The CSV against the log *)

(** X13.  The CSV has one data row for each address that some line of
    the log was matched with, and no other: its address column is a
    rearrangement of the matched addresses, each taken once, and the
    counter holds them in the order in which they first turned up. *)
Theorem csv_has_a_row_per_matched_address now fs path top_n lines res :
  fs !! path = Some (Regular lines) →
  analyze_log now fs path top_n = Ok res →
  (counts res).*1 = first_occurrences (omap (matched_ip now) lines)
  ∧ (fun row : list string => row !!! 0%nat)
      <$> tail (csv_rows (counts res) (first_seen res) (last_seen res))
    ≡ₚ first_occurrences (omap (matched_ip now) lines).
Proof.
  intros Hfs Hres.
  pose proof (counts_in_first_encounter_order _ _ _ _ _ _ Hfs Hres) as Hkeys.
  split; [done|]. rewrite <-Hkeys. unfold csv_rows. simpl.
  rewrite <-list_fmap_compose.
  change ((fun row : list string => row !!! 0%nat)
          ∘ csv_row (first_seen res) (last_seen res)) with (@fst string Z).
  by rewrite sorted_desc_Permutation.
Qed.

Lemma csv_has_a_row_per_matched_address_witness :
  ∃ res, analyze_log 2026 sample_fs "auth.log" 10 = Ok res
         ∧ (counts res).*1 = ["1.2.3.4"; "5.6.7.8"; "9.9.9.9"]%string.
Proof.
  pose (r := analyze_log 2026 sample_fs "auth.log" 10).
  assert (∃ res, r = Ok res) as [res Hres] by (vm_compute; by eexists).
  exists res. split; [exact Hres|].
  assert (sample_fs !! "auth.log"%string = Some (Regular sample_log)) as Hfs
    by (vm_compute; reflexivity).
  rewrite (proj1 (csv_has_a_row_per_matched_address 2026 sample_fs "auth.log" 10
                    sample_log res Hfs Hres)).
  vm_compute. reflexivity.
Defined.

Lemma counter_get_elem (c : list (string * Z)) k v :
  NoDup c.*1 → (k, v) ∈ c → counter_get k c = v.
Proof.
  induction c as [|[k0 v0] c IH]; csimpl.
  - by intros _ ?%not_elem_of_nil.
  - intros [Hk0 Hnd]%NoDup_cons [[= -> ->]|Hin]%elem_of_cons.
    + by rewrite decide_True.
    + rewrite decide_False; [by apply IH|].
      intros ->. apply Hk0. apply list_elem_of_fmap. by exists (k, v).
Qed.

(** X14.  Every data row of the CSV has four fields, and its count
    field, read back with [int], is the number of lines of the log that
    were matched with the address in its first field. *)
Theorem csv_row_count_is_number_of_lines now fs path top_n lines res row :
  fs !! path = Some (Regular lines) →
  analyze_log now fs path top_n = Ok res →
  row ∈ tail (csv_rows (counts res) (first_seen res) (last_seen res)) →
  length row = 4%nat
  ∧ int (chars (row !!! 1%nat))
    = Ok (Z.of_nat (length (filter (fun line => matched_ip now line = Some (row !!! 0%nat))
                              lines))).
Proof.
  intros Hfs Hres Hrow.
  pose proof Hres as Hloop. rewrite (analyze_log_Regular _ _ _ _ lines Hfs) in Hloop.
  destruct (analyze_loop_consistent _ _ _ Hloop) as [_ _ Hnd Hpos _].
  unfold csv_rows in Hrow. simpl in Hrow.
  apply list_elem_of_fmap in Hrow as ([ip n] & -> & Hin).
  rewrite sorted_desc_Permutation in Hin.
  split; [done|].
  change (csv_row (first_seen res) (last_seen res) (ip, n) !!! 1%nat) with (str_Z n).
  change (csv_row (first_seen res) (last_seen res) (ip, n) !!! 0%nat) with ip.
  rewrite Forall_forall in Hpos. pose proof (Hpos _ Hin) as Hn. simpl in Hn.
  rewrite int_str_Z by lia. f_equal.
  rewrite <-(counter_get_elem _ _ _ Hnd Hin).
  by rewrite (analyze_loop_count _ _ _ _ ip Hloop).
Qed.

Lemma csv_row_count_is_number_of_lines_witness :
  ∃ res, analyze_log 2026 sample_fs "auth.log" 10 = Ok res
         ∧ length sample_row = 4%nat
         ∧ int (chars (sample_row !!! 1%nat))
           = Ok (Z.of_nat (length (filter (fun line => matched_ip 2026 line
                                                      = Some (sample_row !!! 0%nat))
                                     sample_log))).
Proof.
  pose (r := analyze_log 2026 sample_fs "auth.log" 10).
  assert (∃ res, r = Ok res
            ∧ sample_row
              ∈ tail (csv_rows (counts res) (first_seen res) (last_seen res)))
    as (res & Hres & Hrow).
  { vm_compute. eexists. split; [reflexivity|]. apply list_elem_of_here. }
  exists res. split; [exact Hres|].
  assert (sample_fs !! "auth.log"%string = Some (Regular sample_log)) as Hfs
    by (vm_compute; reflexivity).
  exact (csv_row_count_is_number_of_lines 2026 sample_fs "auth.log" 10
           sample_log res sample_row Hfs Hres Hrow).
Defined.

(** ** [main] *)


